(** * qparser: a shallow embedding of the JSON:API path and query parser

    The Go package [qparser] (file [qparser.go]) is embedded function by
    function.  Go strings are byte sequences, so they are modelled by
    [string] (a list of 8-bit [ascii]); Go maps by stdpp's [gmap]; a Go
    slice whose nil-ness is observable by [option (list _)], [None] being
    [nil]; loops that consume a string by well-founded recursion on its
    length. *)

From Stdlib Require Import Ascii String.
From Equations Require Import Equations.
From stdpp Require Import gmap strings list fin_maps.

Set Warnings "-register-all".

(** ** Go values *)

(** A function returning [(T, error)]: a Go [error] is identified with its
    message. *)
Inductive result (A : Type) : Type :=
| Ok (a : A)
| Err (msg : string).
Arguments Ok {A} a.
Arguments Err {A} msg.

Definition isErr {A} (r : result A) : bool :=
  match r with Ok _ => false | Err _ => true end.

(** A slice that may be [nil]. *)
Definition slice (A : Type) : Type := option (list A).

Definition len {A} (s : slice A) : nat :=
  match s with None => 0 | Some l => length l end.

(** ** The [strings] package, as far as the source uses it *)

Module strings.

(** [s[:i]] *)
Fixpoint sliceTo (s : string) (i : nat) {struct i} : string :=
  match i, s with
  | S i', String c s' => String c (sliceTo s' i')
  | _, _ => EmptyString
  end.

(** [s[i:]] *)
Fixpoint sliceFrom (s : string) (i : nat) {struct i} : string :=
  match i, s with
  | S i', String _ s' => sliceFrom s' i'
  | _, _ => s
  end.

(** [strings.IndexByte]: [None] stands for [-1]. *)
Fixpoint IndexByte (s : string) (c : ascii) : option nat :=
  match s with
  | EmptyString => None
  | String b s' => if decide (b = c) then Some 0 else S <$> IndexByte s' c
  end.

Fixpoint containsByte (chars : string) (b : ascii) : bool :=
  match chars with
  | EmptyString => false
  | String c chars' => if decide (b = c) then true else containsByte chars' b
  end.

(** [strings.IndexAny], for [chars] made of one-byte characters. *)
Fixpoint IndexAny (s chars : string) : option nat :=
  match s with
  | EmptyString => None
  | String b s' => if containsByte chars b then Some 0 else S <$> IndexAny s' chars
  end.

(** [strings.Index]. *)
Fixpoint Index (s substr : string) : option nat :=
  if String.prefix substr s then Some 0
  else match s with
       | EmptyString => None
       | String _ s' => S <$> Index s' substr
       end.

(** [strings.Split] with a one-byte separator, the only way the source
    calls it. *)
Fixpoint Split (s : string) (sep : ascii) : list string :=
  match s with
  | EmptyString => [EmptyString]
  | String c s' =>
      if decide (c = sep) then EmptyString :: Split s' sep
      else match Split s' sep with
           | [] => [String c EmptyString]
           | x :: xs => String c x :: xs
           end
  end.

End strings.

(** ** Data model *)

Record Resource := mkResource {
  Resource_Type : string;
  Resource_ID : string }.

Record Filter := mkFilter {
  Filter_FieldName : string;
  Filter_Predicate : string }.

(** A node's [Includes] is either [nil] or a non-empty slice in every value
    the package builds, so [nil] is the empty list here. *)
Inductive Include : Type :=
| mkInclude (Relation : string) (Includes : list Include).

Definition Include_Relation (i : Include) : string :=
  match i with mkInclude r _ => r end.
Definition Include_Includes (i : Include) : list Include :=
  match i with mkInclude _ l => l end.

Record Page := mkPage {
  Page_Size : string;
  Page_Number : string;
  Page_Limit : string;
  Page_Offset : string;
  Page_Cursor : string }.

Inductive SortOrder := OrderAsc | OrderDesc.

Record Sort := mkSort {
  Sort_FieldName : string;
  Sort_Order : SortOrder }.

Record Value := mkValue {
  Value_TopLevelKey : string;
  Value_NestedKeys : slice string;
  Value_Value : string }.

(** [map[string][]Value]; a nil map reads like the empty one. *)
Abbreviation Values := (gmap string (list Value)).

Abbreviation ResourceFields := (gmap string (list string)).

Record Query := mkQuery {
  Query_Includes : slice Include;
  Query_Fields : option ResourceFields;
  Query_Sort : slice Sort;
  Query_Filters : slice Filter;
  Query_Page : option Page;
  Query_Values : Values }.

Record Request := mkRequest {
  Request_Resource : Resource;
  Request_RelationshipType : string;
  Request_RelatedResourceType : string;
  Request_Query : option Query }.

#[global] Instance SortOrder_eq_dec : EqDecision SortOrder.
Proof. solve_decision. Defined.
#[global] Instance Sort_eq_dec : EqDecision Sort.
Proof. solve_decision. Defined.
#[global] Instance Value_eq_dec : EqDecision Value.
Proof. solve_decision. Defined.

Definition IsRelationshipRequest (r : Request) : bool :=
  negb (String.eqb (Request_RelatedResourceType r) "").

Definition IsRelatedResourceRequest (r : Request) : bool :=
  negb (String.eqb (Request_RelatedResourceType r) "").

Definition relationshipsRequest : string := "relationships".

(** ** [split] *)

Definition split (s : string) (sep : ascii) (cutc : bool) : string * string :=
  match strings.IndexByte s sep with
  | None => (s, "")
  | Some i =>
      if cutc then (strings.sliceTo s i, strings.sliceFrom s (i + 1))
      else (strings.sliceTo s i, strings.sliceFrom s i)
  end.

(** ** [removeExtraDelimiters] *)

Definition delim : ascii := "/".

(** The [for i := 1; ...] loop: [rest] is [path[i:]]. *)
Fixpoint removeExtraDelimiters_loop (rm : bool) (rest result : string) : string :=
  match rest with
  | EmptyString => result
  | String c rest' =>
      if bool_decide (c = delim) && rm then removeExtraDelimiters_loop rm rest' result
      else removeExtraDelimiters_loop (bool_decide (c = delim)) rest'
             (result +:+ String c EmptyString)
  end.

Definition removeExtraDelimiters (path : string) : string :=
  match path with
  | EmptyString => path
  | String c0 rest =>
      removeExtraDelimiters_loop (bool_decide (c0 = delim)) rest (String c0 EmptyString)
  end.

(** ** [extractKeys] *)

Definition openBracket : ascii := "[".
Definition closeBracket : ascii := "]".
Definition nestedKeyDefMin : nat := 3.

(** The first loop: [s] is [key[i:]], [first] says [i == 0].  [None] is the
    early [return key, nil]; otherwise the top key and [rest], which is
    empty when the loop ran to the end of [key]. *)
Fixpoint extractKeys_top (first : bool) (s topKey : string) : option (string * string) :=
  match s with
  | EmptyString => Some (topKey, EmptyString)
  | String c s' =>
      if bool_decide (c = closeBracket) || (first && bool_decide (c = openBracket))
      then None
      else if bool_decide (c = openBracket) then Some (topKey, s)
      else extractKeys_top false s' (topKey +:+ String c EmptyString)
  end.

(** The second loop, over [rest]; [None] is the early [return key, nil]. *)
Fixpoint extractKeys_nested (s : string) (opened : bool) (nestedKey : string)
    (nestedKeys : list string) : option (list string) :=
  match s with
  | EmptyString => Some nestedKeys
  | String c s' =>
      if (opened && bool_decide (c = openBracket))
         || (negb opened && negb (bool_decide (c = openBracket)))
      then None
      else if bool_decide (c = openBracket)
      then extractKeys_nested s' true nestedKey nestedKeys
      else if bool_decide (c = closeBracket)
      then match nestedKey with
           | EmptyString => None
           | _ => extractKeys_nested s' false EmptyString (nestedKeys ++ [nestedKey])
           end
      else extractKeys_nested s' opened (nestedKey +:+ String c EmptyString) nestedKeys
  end.

Definition extractKeys (key : string) : string * slice string :=
  match key with
  | EmptyString => (key, None)
  | _ =>
      match extractKeys_top true key EmptyString with
      | None => (key, None)
      | Some (topKey, rest) =>
          if bool_decide (rest = EmptyString)
             || bool_decide (String.length rest < nestedKeyDefMin)
          then (key, None)
          else match extractKeys_nested rest false EmptyString [] with
               | None => (key, None)
               | Some nestedKeys => (topKey, Some nestedKeys)
               end
      end
  end.

(** ** The query tokenizer: [ParseValues] *)

(** One turn of [for query != ""] up to the [continue]: the fragment before
    the first ['&'] or [';'], and what is left of [query]. *)
Definition nextFragment (query : string) : string * string :=
  match strings.IndexAny query "&;" with
  | Some i => (strings.sliceTo query i, strings.sliceFrom query (i + 1))
  | None => (query, "")
  end.

(** The [Value] a non-empty fragment denotes. *)
Definition fragmentValue (key : string) : Value :=
  let '(key, value) :=
    match strings.Index key "=" with
    | Some i => (strings.sliceTo key i, strings.sliceFrom key (i + 1))
    | None => (key, "")
    end in
  let '(topKey, nestedKeys) := extractKeys key in
  {| Value_TopLevelKey := topKey; Value_NestedKeys := nestedKeys; Value_Value := value |}.

(** [values[topKey] = append(values[topKey], kv)], after the entry for
    [topKey] has been made if it was missing. *)
Definition appendValue (kv : Value) (values : Values) : Values :=
  let topKey := Value_TopLevelKey kv in
  let values :=
    match values !! topKey with
    | None => <[topKey := []]> values
    | Some _ => values
    end in
  <[topKey := default [] (values !! topKey) ++ [kv]]> values.

(** The rest of the loop body: skip an empty fragment, otherwise append
    its [Value] under its top key. *)
Definition addFragment (key : string) (values : Values) : Values :=
  if bool_decide (key = "") then values
  else appendValue (fragmentValue key) values.

Lemma sliceFrom_length (s : string) (i : nat) :
  String.length (strings.sliceFrom s i) = String.length s - i.
Proof.
  revert s; induction i as [|i IH]; intros [|c s]; simpl; try lia. apply IH.
Qed.

Lemma nextFragment_shorter (c : ascii) (q : string) :
  String.length (nextFragment (String c q)).2 < String.length (String c q).
Proof.
  unfold nextFragment.
  destruct (strings.IndexAny (String c q) "&;") as [i|]; cbn [snd].
  - rewrite sliceFrom_length. cbn [String.length]. lia.
  - cbn [String.length]. lia.
Qed.

Equations ParseValues_loop (query : string) (values : Values) : Values
  by wf (String.length query) lt :=
  ParseValues_loop EmptyString values := values;
  ParseValues_loop (String c q) values :=
    ParseValues_loop (nextFragment (String c q)).2
      (addFragment (nextFragment (String c q)).1 values).
Next Obligation. intros c q _ _. apply nextFragment_shorter. Qed.

(** ** The shared loop of [initSort] and [initIncludes] *)

Lemma sliceTo_length_le (s : string) (i : nat) :
  String.length (strings.sliceTo s i) <= i.
Proof.
  revert i; induction s as [|c s IH]; intros [|i]; simpl; try lia.
  specialize (IH i). lia.
Qed.

Lemma IndexByte_lt (s : string) (sep : ascii) (i : nat) :
  strings.IndexByte s sep = Some i -> i < String.length s.
Proof.
  revert i; induction s as [|c s IH]; intros i E; simpl in *; [done|].
  destruct (decide (c = sep)); [injection E as <-; lia|].
  destruct (strings.IndexByte s sep) as [j|]; simpl in E; [|done].
  injection E as <-. specialize (IH j eq_refl). lia.
Qed.

Lemma split_snd_length (s : string) (sep : ascii) :
  String.length (split s sep true).1 + String.length (split s sep true).2
  <= String.length s.
Proof.
  unfold split. destruct (strings.IndexByte s sep) as [i|] eqn:E; cbn [fst snd].
  - rewrite sliceFrom_length.
    pose proof (sliceTo_length_le s i). pose proof (IndexByte_lt _ _ _ E). lia.
  - cbn [String.length]. lia.
Qed.

Lemma split_snd_shorter (c : ascii) (q : string) (sep : ascii) :
  String.length (split (String c q) sep true).2 < String.length (String c q).
Proof.
  pose proof (split_snd_length (String c q) sep) as H.
  unfold split in *. destruct (strings.IndexByte (String c q) sep) as [i|] eqn:E;
    cbn [fst snd] in *.
  - rewrite sliceFrom_length. cbn [String.length]. lia.
  - cbn [String.length]. lia.
Qed.

(** [for cur != "" { ...; cur, rest = split(rest, sep, true) }]: both
    builders walk the comma-separated entries of a value with this loop;
    [body] is what they do with [cur] before the next [split]. *)
Equations loopEntries {St : Type} (sep : ascii) (body : string -> St -> St)
    (cur rest : string) (st : St) : St
  by wf (String.length cur + String.length rest) lt :=
  loopEntries sep body EmptyString rest st := st;
  loopEntries sep body (String c cur') rest st :=
    loopEntries sep body (split rest sep true).1 (split rest sep true).2
      (body (String c cur') st).
Next Obligation.
  intros St sep body c cur' rest _ _.
  pose proof (split_snd_length rest sep). cbn [String.length]. lia.
Qed.

(** ** The projection builders *)

Definition fieldsDelimiter : ascii := ",".
Definition pageKeyword : string := "page".
Definition sortKeyword : string := "sort".
Definition filterKeyword : string := "filter".
Definition includeKeyword : string := "include".
Definition fieldsKeyword : string := "fields".

(** *** [initResourceFields] *)

Record fieldsState := mkFieldsState {
  fs_fields : ResourceFields;
  fs_duplicates : gmap string (gset string);
  fs_returnFields : bool }.

(** The inner loop [for _, item := range list]. *)
Fixpoint initResourceFields_items (items toAppend : list string)
    (byResource : gset string) : list string * gset string :=
  match items with
  | [] => (toAppend, byResource)
  | item :: items' =>
      if bool_decide (item = "") then initResourceFields_items items' toAppend byResource
      else if bool_decide (item ∈ byResource)
      then initResourceFields_items items' toAppend byResource
      else initResourceFields_items items' (toAppend ++ [item]) ({[item]} ∪ byResource)
  end.

(** The body of [for _, val := range fieldsValues].  The pattern
    [Some [resourceType]] is [len(val.NestedKeys) == 1] with
    [val.NestedKeys[0]].  [byResource] is the map stored in [duplicates], so
    what the inner loop adds to it is written back. *)
Definition initResourceFields_body (val : Value) (st : fieldsState) : fieldsState :=
  match Value_NestedKeys val with
  | Some [resourceType] =>
      if bool_decide (Value_Value val = "") then st
      else
        let byResource := default ∅ (fs_duplicates st !! resourceType) in
        let items := strings.Split (Value_Value val) fieldsDelimiter in
        let '(toAppend, byResource) := initResourceFields_items items [] byResource in
        let duplicates := <[resourceType := byResource]> (fs_duplicates st) in
        match toAppend with
        | [] => mkFieldsState (fs_fields st) duplicates (fs_returnFields st)
        | _ =>
            let fields :=
              match fs_fields st !! resourceType with
              | Some l => <[resourceType := l ++ toAppend]> (fs_fields st)
              | None => <[resourceType := toAppend]> (fs_fields st)
              end in
            mkFieldsState fields duplicates true
        end
  | _ => st
  end.

Definition initResourceFields (values : Values) : option ResourceFields :=
  match values !! fieldsKeyword with
  | None => None
  | Some fieldsValues =>
      let st := foldl (fun st val => initResourceFields_body val st)
                  (mkFieldsState ∅ ∅ false) fieldsValues in
      if fs_returnFields st then Some (fs_fields st) else None
  end.

(** [FieldsByResource]: a nil receiver has no fields. *)
Definition FieldsByResource (r : option ResourceFields) (resource : string)
    : option (list string) :=
  match r with
  | None => None
  | Some fields => fields !! resource
  end.

(** *** [Values.Get], [SortOrder.String] *)

(** The elements of a slice; [nil] has none. *)
Definition elems {A} (s : slice A) : list A := default [] s.

(** The loop [for i, key := range nestedKeys] of [Get]: [true] when [match]
    is still set at its end.  The lengths have been compared before, so
    [item.NestedKeys[i]] is in range. *)
Fixpoint Get_match (itemKeys : list string) (i : nat) (nestedKeys : list string) : bool :=
  match nestedKeys with
  | [] => true
  | key :: nestedKeys' =>
      match itemKeys !! i with
      | Some k => if bool_decide (k ≠ key) then false
                  else Get_match itemKeys (S i) nestedKeys'
      | None => false
      end
  end.

(** The loop [for _, item := range list] of [Get]. *)
Fixpoint Get_loop (items : list Value) (nestedKeys : slice string) : string :=
  match items with
  | [] => ""
  | item :: items' =>
      if negb (Nat.eqb (len (Value_NestedKeys item)) (len nestedKeys))
      then Get_loop items' nestedKeys
      else if Nat.eqb (len (Value_NestedKeys item)) 0 && Nat.eqb (len nestedKeys) 0
      then Value_Value item
      else if Get_match (elems (Value_NestedKeys item)) 0 (elems nestedKeys)
      then Value_Value item
      else Get_loop items' nestedKeys
  end.

(** [v.Get(topKey, nestedKeys...)]; a nil map and a missing key both read as
    the empty list. *)
Definition Get (v : Values) (topKey : string) (nestedKeys : slice string) : string :=
  let items := default [] (v !! topKey) in
  if Nat.eqb (length items) 0 then ""
  else Get_loop items nestedKeys.


(** *** [initSort] *)

Definition sortDelimiter : ascii := ",".
Definition sortDescChar : ascii := "-".

Record sortState := mkSortState {
  ss_sort : list Sort;
  ss_returnSort : bool;
  ss_duplicates : gset string }.

(** The body of [for cur != ""], without the final
    [cur, rest = split(rest, sortDelimiter, true)] that all three of its
    exits share. *)
Definition initSort_body (cur : string) (st : sortState) : sortState :=
  let '(order, cur) :=
    match cur with
    | String c cur' => if bool_decide (c = sortDescChar) then (OrderDesc, cur') else (OrderAsc, cur)
    | EmptyString => (OrderAsc, cur)
    end in
  if bool_decide (cur ∈ ss_duplicates st) then st
  else if bool_decide (cur = "") then st
  else mkSortState (ss_sort st ++ [mkSort cur order]) true ({[cur]} ∪ ss_duplicates st).

(** The body of [for _, val := range sortValues]. *)
Definition initSort_value (val : Value) (st : sortState) : sortState :=
  if bool_decide (Value_Value val = "") || negb (Nat.eqb (len (Value_NestedKeys val)) 0) then st
  else
    let '(cur, rest) := split (Value_Value val) sortDelimiter true in
    loopEntries sortDelimiter initSort_body cur rest st.

Definition initSort (values : Values) : slice Sort :=
  match values !! sortKeyword with
  | None => None
  | Some sortValues =>
      let st := foldl (fun st val => initSort_value val st)
                  (mkSortState [] false ∅) sortValues in
      if ss_returnSort st then Some (ss_sort st) else None
  end.

(** *** [initFilters] *)

(** The body of [for _, val := range filterValues]; [Some [fieldName]] is
    [len(val.NestedKeys) == 1] with [val.NestedKeys[0]]. *)
Definition initFilters_body (val : Value) (st : list Filter * bool) : list Filter * bool :=
  match Value_NestedKeys val with
  | Some [fieldName] =>
      if bool_decide (Value_Value val = "") then st
      else (st.1 ++ [mkFilter fieldName (Value_Value val)], true)
  | _ => st
  end.

Definition initFilters (values : Values) : slice Filter :=
  match values !! filterKeyword with
  | None => None
  | Some filterValues =>
      let '(filters, returnFilters) :=
        foldl (fun st val => initFilters_body val st) ([], false) filterValues in
      if returnFilters then Some filters else None
  end.

(** *** [initIncludes] and [expandInclude] *)

Definition relationDelimiter : ascii := ",".
Definition nestedRelationDelimiter : ascii := ".".

(** The index of the first node of [incs] whose relation is [cur]: the
    search loop of [expandInclude]. *)
Fixpoint findRelation (incs : list Include) (cur : string) : option nat :=
  match incs with
  | [] => None
  | inc :: incs' =>
      if bool_decide (Include_Relation inc = cur) then Some 0
      else S <$> findRelation incs' cur
  end.

(** [expandInclude root queryPart] is [*root] after the call.  [newRoot]
    points into [root.Includes], so the recursive call rewrites that element
    in place; a node that is appended is expanded where it has been
    appended. *)
Equations expandInclude (root : Include) (queryPart : string) : Include
  by wf (String.length queryPart) lt :=
  expandInclude root EmptyString := root;
  expandInclude root (String c q) :=
    match Include_Includes root with
    | [] =>
        mkInclude (Include_Relation root)
          [expandInclude (mkInclude (split (String c q) nestedRelationDelimiter true).1 [])
             (split (String c q) nestedRelationDelimiter true).2]
    | incs =>
        match findRelation incs (split (String c q) nestedRelationDelimiter true).1 with
        | Some i =>
            match incs !! i with
            | Some newRoot =>
                mkInclude (Include_Relation root)
                  (<[i := expandInclude newRoot
                            (split (String c q) nestedRelationDelimiter true).2]> incs)
            | None => root
            end
        | None =>
            mkInclude (Include_Relation root)
              (incs ++
               [expandInclude
                  (mkInclude (split (String c q) nestedRelationDelimiter true).1 [])
                  (split (String c q) nestedRelationDelimiter true).2])
        end
    end.
Solve All Obligations with (intros; apply split_snd_shorter).

Record includesState := mkIncludesState {
  is_heap : list Include;
  is_roots : gmap string nat;
  is_ordered : list nat }.

(** [*p]; every pointer the builder holds has been allocated, so the default
    is never read. *)
Definition deref (heap : list Include) (p : nat) : Include :=
  default (mkInclude "" []) (heap !! p).

(** The body of [for cur != ""], without the final
    [cur, rest = split(rest, relationDelimiter, true)].  The root nodes live
    in [is_heap]; a [*Include] is an index into it, shared by [roots] and
    [ordered]. *)
Definition initIncludes_body (cur : string) (st : includesState) : includesState :=
  let '(rootKey, next) := split cur nestedRelationDelimiter true in
  let '(root, st) :=
    match is_roots st !! rootKey with
    | Some existingRoot => (existingRoot, st)
    | None =>
        let root := length (is_heap st) in
        (root, mkIncludesState (is_heap st ++ [mkInclude rootKey []])
                 (<[rootKey := root]> (is_roots st))
                 (is_ordered st ++ [root]))
    end in
  mkIncludesState (<[root := expandInclude (deref (is_heap st) root) next]> (is_heap st))
    (is_roots st) (is_ordered st).

(** The body of [for _, val := range incValues]. *)
Definition initIncludes_value (val : Value) (st : includesState) : includesState :=
  if (0 <? len (Value_NestedKeys val))%nat || bool_decide (Value_Value val = "") then st
  else
    let '(cur, rest) := split (Value_Value val) relationDelimiter true in
    loopEntries relationDelimiter initIncludes_body cur rest st.

Definition initIncludes (values : Values) : slice Include :=
  match values !! includeKeyword with
  | None => None
  | Some incValues =>
      let st := foldl (fun st val => initIncludes_value val st)
                  (mkIncludesState [] ∅ []) incValues in
      Some (deref (is_heap st) <$> is_ordered st)
  end.

(** *** [initPage] *)

(** The body of [for _, val := range pageValues]: the [switch] on
    [val.NestedKeys[0]], [st] being [page] and [returnPage]. *)
Definition initPage_body (val : Value) (st : Page * bool) : Page * bool :=
  let page := st.1 in
  match Value_NestedKeys val with
  | Some [k] =>
      if bool_decide (k = "size")
      then (mkPage (Value_Value val) (Page_Number page) (Page_Limit page)
              (Page_Offset page) (Page_Cursor page), true)
      else if bool_decide (k = "number")
      then (mkPage (Page_Size page) (Value_Value val) (Page_Limit page)
              (Page_Offset page) (Page_Cursor page), true)
      else if bool_decide (k = "limit")
      then (mkPage (Page_Size page) (Page_Number page) (Value_Value val)
              (Page_Offset page) (Page_Cursor page), true)
      else if bool_decide (k = "offset")
      then (mkPage (Page_Size page) (Page_Number page) (Page_Limit page)
              (Value_Value val) (Page_Cursor page), true)
      else if bool_decide (k = "cursor")
      then (mkPage (Page_Size page) (Page_Number page) (Page_Limit page)
              (Page_Offset page) (Value_Value val), true)
      else st
  | _ => st
  end.

Definition initPage (values : Values) : option Page :=
  match values !! pageKeyword with
  | None => None
  | Some pageValues =>
      let '(page, returnPage) :=
        foldl (fun st val => initPage_body val st) (mkPage "" "" "" "" "", false)
          pageValues in
      if returnPage then Some page else None
  end.

(** ** Parsing, over the percent-decoders of [net/url] and [strconv.Quote] *)

Section Parser.

(** [url.PathUnescape], [url.QueryUnescape] and the quoting of [%q]
    belong to the Go standard library; the parser is embedded over any
    such functions. *)
Variable PathUnescape : string -> result string.
Variable QueryUnescape : string -> result string.
Variable Quote : string -> string.

Definition ParseValues (query : string) : result Values :=
  match QueryUnescape query with
  | Err msg => Err ("qparser: failed to unescape query: " +:+ msg)
  | Ok query =>
      let query :=
        match query with
        | String c q' => if bool_decide (c = "?"%char) then q' else query
        | EmptyString => query
        end in
      Ok (ParseValues_loop query ∅)
  end.

Definition ParseQuery (query : string) : result Query :=
  match ParseValues query with
  | Err msg => Err msg
  | Ok values =>
      Ok {| Query_Includes := initIncludes values;
            Query_Fields := initResourceFields values;
            Query_Sort := initSort values;
            Query_Filters := initFilters values;
            Query_Page := initPage values;
            Query_Values := values |}
  end.

Definition parsePath (path : string) : result Request :=
  match PathUnescape path with
  | Err msg => Err msg
  | Ok path =>
      let path := removeExtraDelimiters path in
      if bool_decide (path = "") || bool_decide (path = String delim "")
      then Err "qparser: empty path is given, path must have 1-4 segments"
      else
        let path :=
          match path with
          | String c p' => if bool_decide (c = delim) then p' else path
          | EmptyString => path
          end in
        match strings.Split path delim with
        | [seg0] => Ok (mkRequest (mkResource seg0 "") "" "" None)
        | [seg0; seg1] => Ok (mkRequest (mkResource seg0 seg1) "" "" None)
        | [seg0; seg1; seg2] => Ok (mkRequest (mkResource seg0 seg1) "" seg2 None)
        | [seg0; seg1; seg2; seg3] =>
            if bool_decide (seg2 ≠ relationshipsRequest)
            then Err ("qparser: path format error, expected the segment 3 of the path is to be '"
                      +:+ relationshipsRequest +:+ "' but '" +:+ seg2 +:+ "' is received")
            else Ok (mkRequest (mkResource seg0 seg1) seg3 "" None)
        | _ => Err ("unknown path format " +:+ Quote path
                    +:+ ", path must have 1-4 segments")
        end
  end.

Definition ParseRequest (params : string) : result Request :=
  let '(path, query) := split params "?" true in
  match parsePath path with
  | Err msg => Err msg
  | Ok request =>
      match ParseQuery query with
      | Err msg => Err msg
      | Ok q =>
          Ok (mkRequest (Request_Resource request) (Request_RelationshipType request)
                (Request_RelatedResourceType request) (Some q))
      end
  end.

End Parser.

(** ** An executable instance of the standard-library functions *)

Module strconv.

Definition dquote : ascii := "034".
Definition backslash : ascii := "092".

Fixpoint escape (s : string) : string :=
  match s with
  | EmptyString => EmptyString
  | String c s' =>
      if bool_decide (c = dquote) || bool_decide (c = backslash)
      then String backslash (String c (escape s'))
      else String c (escape s')
  end.

(** [strconv.Quote] as it acts on printable ASCII text. *)
Definition Quote (s : string) : string :=
  String dquote (escape s +:+ String dquote EmptyString).

End strconv.

Module url.

Definition ishex (c : ascii) : bool :=
  let n := nat_of_ascii c in
  ((48 <=? n)%nat && (n <=? 57)%nat) || ((97 <=? n)%nat && (n <=? 102)%nat)
  || ((65 <=? n)%nat && (n <=? 70)%nat).

Definition unhex (c : ascii) : nat :=
  let n := nat_of_ascii c in
  if (48 <=? n)%nat && (n <=? 57)%nat then n - 48
  else if (97 <=? n)%nat && (n <=? 102)%nat then n - 97 + 10
  else if (65 <=? n)%nat && (n <=? 70)%nat then n - 65 + 10
  else 0.

(** [unescape] of [net/url] in the modes [encodePathSegment]
    ([plus = false]) and [encodeQueryComponent] ([plus = true]): ["%XX"]
    is one byte, a ['%'] not followed by two hex digits is an
    [EscapeError], and the query mode turns ['+'] into a space. *)
Fixpoint unescape (plus : bool) (s : string) : result string :=
  match s with
  | EmptyString => Ok EmptyString
  | String c s' =>
      if bool_decide (c = "%"%char) then
        match s' with
        | String h1 (String h2 s'') =>
            if ishex h1 && ishex h2 then
              match unescape plus s'' with
              | Ok t => Ok (String (ascii_of_nat (unhex h1 * 16 + unhex h2)) t)
              | Err msg => Err msg
              end
            else Err ("invalid URL escape " +:+ strconv.Quote (strings.sliceTo s 3))
        | _ => Err ("invalid URL escape " +:+ strconv.Quote (strings.sliceTo s 3))
        end
      else
        match unescape plus s' with
        | Ok t => Ok (String (if plus && bool_decide (c = "+"%char) then " "%char else c) t)
        | Err msg => Err msg
        end
  end.

Definition PathUnescape : string -> result string := unescape false.
Definition QueryUnescape : string -> result string := unescape true.

End url.

Definition goParseValues := ParseValues url.QueryUnescape.
Definition goParsePath := parsePath url.PathUnescape strconv.Quote.
Definition goParseQuery := ParseQuery url.QueryUnescape.
Definition goParseRequest := ParseRequest url.PathUnescape url.QueryUnescape strconv.Quote.

(** * Specification-side definitions

    What the claims speak of, and the invariants of the loops, in the
    words of the specification; none of them is used by the embedding
    above. *)

(** The segments of a decoded path: normalize, drop one leading separator,
    cut at the separators. *)
Definition pathSegments (decoded : string) : list string :=
  let path := removeExtraDelimiters decoded in
  strings.Split
    match path with
    | String c p' => if bool_decide (c = delim) then p' else path
    | EmptyString => path
    end delim.

(** A segment as a client writes it: not empty, no separator inside. *)
Definition plainSegment (seg : string) : Prop :=
  seg ≠ "" /\ strings.IndexByte seg delim = None.

(** The path [/seg0/seg1/...]. *)
Fixpoint joinPath (segs : list string) : string :=
  match segs with
  | [] => EmptyString
  | seg :: segs' => String delim (seg +:+ joinPath segs')
  end.

(** A decoded path that is empty or normalizes to a lone separator. *)
Definition degeneratePath (decoded : string) : Prop :=
  removeExtraDelimiters decoded = "" \/ removeExtraDelimiters decoded = String delim "".

(** The message of the error a four-segment path gets when its third
    segment is [received]. *)
Definition relationshipsError (received : string) : string :=
  "qparser: path format error, expected the segment 3 of the path is to be '"
  +:+ relationshipsRequest +:+ "' but '" +:+ received +:+ "' is received".

(** The four hard failures: a decoder rejects the path or the query, the
    decoded path is degenerate, it has more than four segments, or it has
    four and the third is not [relationships]. *)
Definition hardFailure (PathUnescape QueryUnescape : string -> result string)
    (params : string) : Prop :=
  let path := (split params "?" true).1 in
  let query := (split params "?" true).2 in
  (exists msg, PathUnescape path = Err msg)
  \/ (exists msg, QueryUnescape query = Err msg)
  \/ (exists decoded, PathUnescape path = Ok decoded
        /\ (degeneratePath decoded
            \/ 4 < length (pathSegments decoded)
            \/ exists seg0 seg1 seg2 seg3,
                 pathSegments decoded = [seg0; seg1; seg2; seg3]
                 /\ seg2 ≠ relationshipsRequest)).

(** A builder returns [nil] for an empty result. *)
Definition nonEmpty {A} (l : list A) : slice A :=
  match l with [] => None | _ => Some l end.

(** The entries of a list up to the first empty one. *)
Fixpoint upToEmpty (l : list string) : list string :=
  match l with
  | [] => []
  | x :: l' => if bool_decide (x = "") then [] else x :: upToEmpty l'
  end.

(** ** The delimiter normalizer *)

Module Normalizer.

(** The loop of [removeExtraDelimiters] without its accumulator. *)
Fixpoint collapse (rm : bool) (s : string) : string :=
  match s with
  | EmptyString => EmptyString
  | String c s' =>
      if bool_decide (c = delim) && rm then collapse rm s'
      else String c (collapse (bool_decide (c = delim)) s')
  end.

(** [s] holds two adjacent separators. *)
Fixpoint hasDouble (s : string) : bool :=
  match s with
  | EmptyString => false
  | String a t =>
      match t with
      | String b _ => bool_decide (a = delim) && bool_decide (b = delim)
      | EmptyString => false
      end || hasDouble t
  end.

Definition startsDelim (s : string) : bool :=
  match s with
  | String c _ => bool_decide (c = delim)
  | EmptyString => false
  end.

(** A run of [n] separators. *)
Fixpoint delimRun (n : nat) : string :=
  match n with
  | 0 => EmptyString
  | S n' => String delim (delimRun n')
  end.

(** What is left of [s] when the separators are taken out. *)
Fixpoint withoutDelims (s : string) : string :=
  match s with
  | EmptyString => EmptyString
  | String c s' => if bool_decide (c = delim) then withoutDelims s' else String c (withoutDelims s')
  end.

End Normalizer.

(** ** The fragments of a query *)

Module Tokenizer.

(** The pieces of [s] between the bytes of [chars]. *)
Fixpoint splitAny (s chars : string) : list string :=
  match s with
  | EmptyString => [EmptyString]
  | String c s' =>
      if strings.containsByte chars c then EmptyString :: splitAny s' chars
      else match splitAny s' chars with
           | [] => [String c EmptyString]
           | x :: xs => String c x :: xs
           end
  end.

(** The fragments of a decoded query, as the specification words them: the
    non-empty pieces between ['&'] and [';'], in order of occurrence. *)
Definition queryFragments (decoded : string) : list string :=
  filter (fun fragment => fragment ≠ "") (splitAny decoded "&;").

(** One leading ['?'] is dropped. *)
Definition stripQuestion (decoded : string) : string :=
  match decoded with
  | String c q' => if bool_decide (c = "?"%char) then q' else decoded
  | EmptyString => decoded
  end.

(** The records of the fragments of a decoded query with top key [K]. *)
Definition valuesUnder (K : string) (decoded : string) : list Value :=
  filter (fun kv => Value_TopLevelKey kv = K)
    (fragmentValue <$> queryFragments (stripQuestion decoded)).

(** No key is ever bound to an empty sequence. *)
Definition populated (values : Values) : Prop :=
  forall K, values !! K ≠ Some [].

End Tokenizer.

(** ** The bracket grammar *)

Module Brackets.

(** The grammar of the specification, [IDENT ('[' NESTED_IDENT ']')*], as a
    recognizer: [GStart] before the first byte, [GTop] inside the top key,
    [GOpen] right after a ['['], [GNested] inside a nested key, [GClose]
    right after a [']']. *)
Inductive gstate := GStart | GTop | GOpen | GNested | GClose.

Fixpoint accepts (st : gstate) (s : string) : bool :=
  match s with
  | EmptyString =>
      match st with
      | GStart | GTop | GClose => true
      | GOpen | GNested => false
      end
  | String c s' =>
      if bool_decide (c = openBracket) then
        match st with
        | GTop | GClose => accepts GOpen s'
        | _ => false
        end
      else if bool_decide (c = closeBracket) then
        match st with
        | GNested => accepts GClose s'
        | _ => false
        end
      else
        match st with
        | GStart | GTop => accepts GTop s'
        | GOpen | GNested => accepts GNested s'
        | GClose => false
        end
  end.

Definition wellFormed (token : string) : bool := accepts GStart token.

(** What the specification asks of [extractKeys] on [token]: a token outside
    the grammar comes back unchanged with [nil]; any other result carries a
    non-empty list of nested keys. *)
Definition failSoft (token : string) : Prop :=
  (wellFormed token = false -> extractKeys token = (token, None))
  /\ (extractKeys token = (token, None)
      \/ exists topKey nestedKeys,
           extractKeys token = (topKey, Some nestedKeys) /\ nestedKeys ≠ []).

(** The token ends inside a bracket that is never closed: the recognizer
    reaches the end of the token in [GOpen] or [GNested]. *)
Fixpoint endsUnclosed (st : gstate) (s : string) : bool :=
  match s with
  | EmptyString =>
      match st with
      | GOpen | GNested => true
      | GStart | GTop | GClose => false
      end
  | String c s' =>
      if bool_decide (c = openBracket) then
        match st with
        | GTop | GClose => endsUnclosed GOpen s'
        | _ => false
        end
      else if bool_decide (c = closeBracket) then
        match st with
        | GNested => endsUnclosed GClose s'
        | _ => false
        end
      else
        match st with
        | GStart | GTop => endsUnclosed GTop s'
        | GOpen | GNested => endsUnclosed GNested s'
        | GClose => false
        end
  end.

Definition topState (first : bool) : gstate := if first then GStart else GTop.

Definition nestedState (opened : bool) (nestedKey : string) : gstate :=
  if opened then match nestedKey with EmptyString => GOpen | _ => GNested end
  else GClose.

End Brackets.

(** ** The sort list *)

Module SortBuilder.

(** A comma-separated field as a sort entry: a leading ['-'] is taken off
    and means descending. *)
Definition parseField (entry : string) : Sort :=
  match entry with
  | String c name => if bool_decide (c = sortDescChar) then mkSort name OrderDesc
                     else mkSort entry OrderAsc
  | EmptyString => mkSort entry OrderAsc
  end.

(** Keep [f] unless its name is empty or has been seen, whatever the
    direction it was seen with. *)
Definition addField (acc : list Sort) (f : Sort) : list Sort :=
  if bool_decide (Sort_FieldName f ∈ Sort_FieldName <$> acc) then acc
  else if bool_decide (Sort_FieldName f = "") then acc
  else acc ++ [f].

Definition sortEligible (val : Value) : bool :=
  negb (bool_decide (Value_Value val = "") || negb (Nat.eqb (len (Value_NestedKeys val)) 0)).

(** The sort list over the values of the [sort] key, when [read] says which
    comma-separated fields of a value count: first occurrence of a name
    wins, in order of first occurrence over all values. *)
Definition dedupFields (read : list string -> list string) (vals : list Value) : list Sort :=
  foldl addField []
    (flat_map (fun val =>
                 if sortEligible val
                 then parseField <$> read (strings.Split (Value_Value val) sortDelimiter)
                 else []) vals).

(** The builder as the specification words it: every comma-separated field
    of every value counts. *)
Definition sortSpec (values : Values) : slice Sort :=
  match values !! sortKeyword with
  | None => None
  | Some vals => nonEmpty (dedupFields (fun fields => fields) vals)
  end.

(** The invariant of the loops of [initSort]: [duplicates] holds the names
    of [sort], and [returnSort] says that [sort] is not empty. *)
Definition sortInv (st : sortState) (acc : list Sort) : Prop :=
  ss_sort st = acc
  /\ (forall name, name ∈ ss_duplicates st <-> name ∈ Sort_FieldName <$> acc)
  /\ ss_returnSort st = bool_decide (acc ≠ []).

End SortBuilder.

(** ** The resource fields *)

Module FieldsBuilder.

(** Append [x] unless it is there already: first occurrences, in order. *)
Definition addNew (acc : list string) (x : string) : list string :=
  if bool_decide (x ∈ acc) then acc else acc ++ [x].

(** The field names a value contributes to [resourceType], when [accepted]
    says which value strings count: the value must carry [resourceType] as
    its only nested key; its string is cut at the commas and the empty
    entries are dropped. *)
Definition itemsOf (accepted : string -> bool) (resourceType : string) (val : Value)
    : list string :=
  match Value_NestedKeys val with
  | Some [rt] =>
      if bool_decide (rt = resourceType) && accepted (Value_Value val)
      then filter (fun item => item ≠ "") (strings.Split (Value_Value val) fieldsDelimiter)
      else []
  | _ => []
  end.

(** The fields of [resourceType] over all the values of the [fields] key:
    later values are appended to earlier ones, and a name counts once. *)
Definition fieldsFor (accepted : string -> bool) (resourceType : string)
    (vals : list Value) : list string :=
  foldl addNew [] (flat_map (itemsOf accepted resourceType) vals).

Definition fieldsSpec (accepted : string -> bool) (values : Values)
    (resourceType : string) : option (list string) :=
  match values !! fieldsKeyword with
  | None => None
  | Some vals => nonEmpty (fieldsFor accepted resourceType vals)
  end.

(** The test of the source: [val.Value != ""]. *)
Definition notEmpty (value : string) : bool := negb (bool_decide (value = "")).

Fixpoint trimLeft (s : string) : string :=
  match s with
  | String c s' => if Ascii.is_space c then trimLeft s' else s
  | EmptyString => EmptyString
  end.

(** White space taken off both ends. *)
Definition trimSpace (s : string) : string :=
  String.rev (trimLeft (String.rev (trimLeft s))).

(** The test the specification words: non-empty after trimming. *)
Definition notBlank (value : string) : bool := negb (bool_decide (trimSpace value = "")).

(** The invariant of the outer loop, after the values [vals]. *)
Definition fieldsInv (st : fieldsState) (vals : list Value) : Prop :=
  (forall rt, fs_fields st !! rt = nonEmpty (fieldsFor notEmpty rt vals))
  /\ (forall rt x, x ∈ default ∅ (fs_duplicates st !! rt)
                   <-> x ∈ fieldsFor notEmpty rt vals)
  /\ (fs_returnFields st = true <-> exists rt, fieldsFor notEmpty rt vals ≠ []).

End FieldsBuilder.

(** ** The include forest *)

Module IncludeBuilder.

Definition includeEligible (val : Value) : bool :=
  negb ((0 <? len (Value_NestedKeys val))%nat || bool_decide (Value_Value val = "")).

(** Merging one relation chain into a forest: find the root by name or
    append it, then descend along the rest of the chain. *)
Definition addChain (forest : list Include) (chain : string) : list Include :=
  match findRelation forest (split chain nestedRelationDelimiter true).1 with
  | Some i =>
      <[i := expandInclude (deref forest i) (split chain nestedRelationDelimiter true).2]>
        forest
  | None =>
      forest ++ [expandInclude (mkInclude (split chain nestedRelationDelimiter true).1 [])
                   (split chain nestedRelationDelimiter true).2]
  end.

(** The forest over the values of the [include] key, when [read] says which
    comma-separated chains of a value count. *)
Definition forestOf (read : list string -> list string) (vals : list Value)
    : list Include :=
  foldl addChain []
    (flat_map (fun val =>
                 if includeEligible val
                 then read (strings.Split (Value_Value val) relationDelimiter)
                 else []) vals).

(** At every level no two nodes carry the same relation. *)
Inductive uniqueRelations : Include -> Prop :=
| uniqueRelations_node (relation : string) (incs : list Include) :
    NoDup (Include_Relation <$> incs) ->
    Forall uniqueRelations incs ->
    uniqueRelations (mkInclude relation incs).

Definition uniqueForest (forest : list Include) : Prop :=
  NoDup (Include_Relation <$> forest) /\ Forall uniqueRelations forest.

(** The store of [initIncludes] against the forest it stands for: the heap
    is the forest, [ordered] lists every node once, in order of allocation,
    and [roots] finds a node by its relation. *)
Definition hinv (st : includesState) (forest : list Include) : Prop :=
  is_heap st = forest
  /\ is_ordered st = seq 0 (length forest)
  /\ forall name, is_roots st !! name = findRelation forest name.

End IncludeBuilder.

(** ** Rendering keys and fragments, lookups *)

(** [s] holds no byte of [chars]. *)
Definition avoids (chars s : string) : Prop := strings.IndexAny s chars = None.

(** A key as [extractKeys] returns it: not empty and free of brackets. *)
Definition bracketFree (k : string) : Prop := avoids "[]" k.
Definition properKey (k : string) : Prop := k ≠ "" /\ bracketFree k.

(** A key a client can write in a query: a proper key that also holds none
    of the bytes that cut a query into fragments, keys and values. *)
Definition plainKey (k : string) : Prop := k ≠ "" /\ avoids "[]=&;" k.

(** [[n1][n2]...] *)
Fixpoint renderNested (nestedKeys : list string) : string :=
  match nestedKeys with
  | [] => EmptyString
  | k :: nestedKeys' =>
      String openBracket (k +:+ String closeBracket (renderNested nestedKeys'))
  end.

(** [top[n1][n2]...] *)
Definition renderKey (topKey : string) (nestedKeys : list string) : string :=
  topKey +:+ renderNested nestedKeys.

(** The first item of [items] whose nested keys are [nestedKeys], a nil
    slice counting as the empty one. *)
Definition firstWithKeys (nestedKeys : slice string) (items : list Value) : option Value :=
  head (filter (fun item => elems (Value_NestedKeys item) = elems nestedKeys) items).

(** A record a client can write as one fragment: plain keys, nested keys
    either [nil] or not empty, and a value free of the fragment
    separators. *)
Definition canonicalKeys (kv : Value) : Prop :=
  plainKey (Value_TopLevelKey kv)
  /\ Value_NestedKeys kv ≠ Some []
  /\ Forall plainKey (elems (Value_NestedKeys kv)).

Definition canonicalValue (kv : Value) : Prop :=
  canonicalKeys kv /\ avoids "&;" (Value_Value kv).

(** [top[n1][n2]...=value] *)
Definition renderFragment (kv : Value) : string :=
  renderKey (Value_TopLevelKey kv) (elems (Value_NestedKeys kv))
  +:+ String "="%char (Value_Value kv).

(** The fragments of the records, each followed by ['&']. *)
Fixpoint renderQuery (kvs : list Value) : string :=
  match kvs with
  | [] => EmptyString
  | kv :: kvs' => renderFragment kv +:+ String "&"%char (renderQuery kvs')
  end.


(** ** Filters and pages *)

(** The filter a value of the [filter] key stands for: it needs exactly one
    nested key, the field, and a value that is not empty. *)
Definition filterOf (val : Value) : option Filter :=
  match Value_NestedKeys val with
  | Some [fieldName] =>
      if bool_decide (Value_Value val = "") then None
      else Some (mkFilter fieldName (Value_Value val))
  | _ => None
  end.

(** The keys a page is read from. *)
Definition pageKeys : list string := ["size"; "number"; "limit"; "offset"; "cursor"].

(** The last value whose only nested key is [k]. *)
Definition lastUnder (k : string) (vals : list Value) : option Value :=
  last (filter (fun val => Value_NestedKeys val = Some [k]) vals).

(** The string a page field holds when it is read from [k]. *)
Definition pageField (k : string) (vals : list Value) : string :=
  from_option Value_Value "" (lastUnder k vals).


(** ** The segments of a path *)

(** Every segment but the last is not empty. *)
Fixpoint innerNonEmpty (segs : list string) : Prop :=
  match segs with
  | seg :: (_ :: _) as segs' => seg ≠ "" /\ innerNonEmpty segs'
  | _ => True
  end.

(** The page of the values of the [page] key: [nil] when no value names a
    field of the page. *)
Definition pageOf (vals : list Value) : option Page :=
  if forallb (fun k => bool_decide (lastUnder k vals = None)) pageKeys then None
  else Some (mkPage (pageField "size" vals) (pageField "number" vals)
               (pageField "limit" vals) (pageField "offset" vals)
               (pageField "cursor" vals)).

(** * Properties *)

Import Normalizer Brackets Tokenizer SortBuilder FieldsBuilder IncludeBuilder.

(** ** Strings *)

Lemma str_app_cons (c : ascii) (a b : string) : String c a +:+ b = String c (a +:+ b).
Proof. reflexivity. Qed.

Lemma str_app_nil_l (a : string) : "" +:+ a = a.
Proof. reflexivity. Qed.

Lemma str_app_nil_r (a : string) : a +:+ "" = a.
Proof. induction a as [|x a IH]; [done|]. by rewrite str_app_cons, IH. Qed.

Lemma str_app_assoc (a b c : string) : (a +:+ b) +:+ c = a +:+ (b +:+ c).
Proof. induction a as [|x a IH]; [done|]. by rewrite !str_app_cons, IH. Qed.

(** ** The delimiter normalizer *)

Lemma loop_collapse (rm : bool) (rest result : string) :
  removeExtraDelimiters_loop rm rest result = result +:+ collapse rm rest.
Proof.
  revert rm result; induction rest as [|c rest IH]; intros rm result;
    cbn [removeExtraDelimiters_loop collapse].
  - by rewrite str_app_nil_r.
  - destruct (bool_decide (c = delim) && rm); [apply IH|].
    rewrite IH, str_app_assoc. done.
Qed.

Lemma removeExtraDelimiters_collapse (path : string) :
  removeExtraDelimiters path = collapse false path.
Proof.
  destruct path as [|c rest]; simpl; [done|].
  rewrite loop_collapse, andb_false_r. done.
Qed.

Lemma collapse_shape (rm : bool) (s : string) :
  hasDouble (collapse rm s) = false
  /\ (rm = true -> startsDelim (collapse rm s) = false).
Proof.
  revert rm; induction s as [|c s IH]; intros rm; simpl; [done|].
  destruct (bool_decide_reflect (c = delim)) as [->|Hc]; simpl.
  - destruct rm; simpl.
    + apply IH.
    + destruct (IH true) as [H1 H2]. split; [|done].
      rewrite H1, orb_false_r.
      specialize (H2 eq_refl). destruct (collapse true s); simpl in *; [done|].
      rewrite H2. by rewrite ?andb_false_r.
  - destruct (IH false) as [H1 _]. split.
    + rewrite H1, orb_false_r. rewrite bool_decide_eq_false_2 by done.
      by destruct (collapse false s).
    + intros _. by rewrite bool_decide_eq_false_2.
Qed.

Lemma collapse_fixed (rm : bool) (s : string) :
  (rm = true -> startsDelim s = false) -> hasDouble s = false -> collapse rm s = s.
Proof.
  revert rm; induction s as [|c s IH]; intros rm Hrm Hd; simpl in *; [done|].
  apply orb_false_elim in Hd as [Hd1 Hd2].
  destruct (bool_decide_reflect (c = delim)) as [->|Hc]; simpl in *.
  - destruct rm; [by specialize (Hrm eq_refl)|].
    f_equal. apply IH; [|done]. intros _. by destruct s.
  - f_equal. by apply IH.
Qed.

Lemma collapse_content (rm : bool) (s : string) :
  withoutDelims (collapse rm s) = withoutDelims s.
Proof.
  revert rm; induction s as [|c s IH]; intros rm; simpl; [done|].
  destruct (bool_decide_reflect (c = delim)) as [->|Hc]; simpl.
  - destruct rm; simpl; apply IH.
  - rewrite bool_decide_eq_false_2 by done. by rewrite IH.
Qed.

Lemma collapse_double (rm : bool) (s : string) :
  collapse rm (String delim (String delim s)) = collapse rm (String delim s).
Proof.
  simpl. by destruct rm.
Qed.

Lemma collapse_run (rm : bool) (n : nat) (s : string) :
  collapse rm (delimRun (S n) +:+ s) = collapse rm (String delim s).
Proof.
  induction n as [|n IH]; [done|].
  change (delimRun (S (S n)) +:+ s) with (String delim (String delim (delimRun n +:+ s))).
  rewrite collapse_double. apply IH.
Qed.

Lemma collapse_prefix (a x y : string) :
  (forall rm, collapse rm x = collapse rm y) ->
  forall rm, collapse rm (a +:+ x) = collapse rm (a +:+ y).
Proof.
  intros Hxy. induction a as [|c a IH]; intros rm; [apply Hxy|].
  rewrite !str_app_cons. simpl. by rewrite !IH.
Qed.

(** [C9] [removeExtraDelimiters] maps the empty string to itself; its result
    never holds two adjacent separators; a run of one or more separators
    anywhere in the input counts as a single separator; an input without
    adjacent separators is returned as it is; the bytes other than the
    separator are the same, in the same order, before and after; and
    normalizing twice is normalizing once. *)
Theorem removeExtraDelimiters_collapses_runs :
  removeExtraDelimiters "" = ""
  /\ (forall s, hasDouble (removeExtraDelimiters s) = false)
  /\ (forall a n b,
        removeExtraDelimiters (a +:+ delimRun (S n) +:+ b)
        = removeExtraDelimiters (a +:+ String delim b))
  /\ (forall s, hasDouble s = false -> removeExtraDelimiters s = s)
  /\ (forall s, withoutDelims (removeExtraDelimiters s) = withoutDelims s)
  /\ (forall s, removeExtraDelimiters (removeExtraDelimiters s) = removeExtraDelimiters s).
Proof.
  split; [done|].
  split. { intros s. rewrite removeExtraDelimiters_collapse.
           apply collapse_shape. }
  split. { intros a n b. rewrite !removeExtraDelimiters_collapse.
           apply collapse_prefix. intros rm. apply collapse_run. }
  split. { intros s Hs. rewrite removeExtraDelimiters_collapse.
           by apply collapse_fixed. }
  split. { intros s. rewrite removeExtraDelimiters_collapse.
           apply collapse_content. }
  intros s. rewrite !removeExtraDelimiters_collapse.
  apply collapse_fixed; [done|]. apply collapse_shape.
Qed.

Lemma removeExtraDelimiters_collapses_runs_witness :
  removeExtraDelimiters "/a/b/c/" = "/a/b/c/"
  /\ removeExtraDelimiters ("//x" +:+ delimRun 3 +:+ "y")
     = removeExtraDelimiters ("//x" +:+ String delim "y")
  /\ removeExtraDelimiters (removeExtraDelimiters "////a////b/////c//")
     = removeExtraDelimiters "////a////b/////c//".
Proof.
  destruct removeExtraDelimiters_collapses_runs as (_ & _ & Hrun & Hfix & _ & Hidem).
  split; [apply Hfix; reflexivity|].
  split; [apply (Hrun "//x" 2 "y")|apply Hidem].
Defined.

(** ** The path segment classifier *)

Section PathFacts.

Variable PathUnescape : string -> result string.
Variable QueryUnescape : string -> result string.
Variable Quote : string -> string.

Lemma parsePath_decoded (path decoded : string) :
  PathUnescape path = Ok decoded ->
  ~ degeneratePath decoded ->
  parsePath PathUnescape Quote path =
  match pathSegments decoded with
  | [seg0] => Ok (mkRequest (mkResource seg0 "") "" "" None)
  | [seg0; seg1] => Ok (mkRequest (mkResource seg0 seg1) "" "" None)
  | [seg0; seg1; seg2] => Ok (mkRequest (mkResource seg0 seg1) "" seg2 None)
  | [seg0; seg1; seg2; seg3] =>
      if bool_decide (seg2 ≠ relationshipsRequest)
      then Err (relationshipsError seg2)
      else Ok (mkRequest (mkResource seg0 seg1) seg3 "" None)
  | _ => Err ("unknown path format "
              +:+ Quote match removeExtraDelimiters decoded with
                        | String c p' =>
                            if bool_decide (c = delim) then p'
                            else removeExtraDelimiters decoded
                        | EmptyString => removeExtraDelimiters decoded
                        end
              +:+ ", path must have 1-4 segments")
  end.
Proof.
  intros Hdec Hnd. unfold parsePath, pathSegments. rewrite Hdec.
  assert (bool_decide (removeExtraDelimiters decoded = "")
          || bool_decide (removeExtraDelimiters decoded = String delim "") = false) as ->.
  { apply orb_false_intro; apply bool_decide_eq_false_2; intros E; apply Hnd;
      [by left|by right]. }
  reflexivity.
Qed.

Lemma parsePath_degenerate (path decoded : string) :
  PathUnescape path = Ok decoded ->
  degeneratePath decoded ->
  parsePath PathUnescape Quote path
  = Err "qparser: empty path is given, path must have 1-4 segments".
Proof.
  intros Hdec Hd. unfold parsePath. rewrite Hdec.
  assert (bool_decide (removeExtraDelimiters decoded = "")
          || bool_decide (removeExtraDelimiters decoded = String delim "") = true) as ->.
  { destruct Hd as [E|E]; rewrite E; reflexivity. }
  reflexivity.
Qed.

Lemma degeneratePath_dec (decoded : string) :
  {degeneratePath decoded} + {~ degeneratePath decoded}.
Proof.
  unfold degeneratePath.
  destruct (decide (removeExtraDelimiters decoded = "")); [by left; left|].
  destruct (decide (removeExtraDelimiters decoded = String delim "")); [by left; right|].
  right. by intros [|].
Qed.

Lemma Split_nonempty (s : string) (sep : ascii) : strings.Split s sep ≠ [].
Proof.
  induction s as [|c s IH]; simpl; [done|].
  destruct (decide (c = sep)); [done|]. by destruct (strings.Split s sep).
Qed.

Lemma ParseQuery_error (query : string) :
  (exists msg, ParseQuery QueryUnescape query = Err msg)
  <-> (exists msg, QueryUnescape query = Err msg).
Proof.
  unfold ParseQuery, ParseValues.
  destruct (QueryUnescape query) as [q|e]; split; intros [msg H]; try done; eauto.
Qed.

End PathFacts.

Lemma IndexByte_None_cons (c sep : ascii) (s : string) :
  strings.IndexByte (String c s) sep = None <-> c ≠ sep /\ strings.IndexByte s sep = None.
Proof.
  simpl. destruct (decide (c = sep)) as [->|Hne].
  - split; [done|]. by intros [? _].
  - destruct (strings.IndexByte s sep); simpl; split; try done. by intros [_ ?].
Qed.

Lemma Split_plain (seg : string) :
  strings.IndexByte seg delim = None -> strings.Split seg delim = [seg].
Proof.
  induction seg as [|c seg IH]; [done|]. intros [Hc Hs]%IndexByte_None_cons.
  simpl. rewrite decide_False by done. by rewrite IH.
Qed.

Lemma Split_plain_app (seg rest : string) :
  strings.IndexByte seg delim = None ->
  strings.Split (seg +:+ String delim rest) delim = seg :: strings.Split rest delim.
Proof.
  induction seg as [|c seg IH]; [done|]. intros [Hc Hs]%IndexByte_None_cons.
  rewrite str_app_cons. simpl. rewrite decide_False by done. by rewrite IH.
Qed.

Lemma hasDouble_plain_app (seg rest : string) :
  strings.IndexByte seg delim = None ->
  hasDouble rest = false -> hasDouble (seg +:+ rest) = false.
Proof.
  induction seg as [|c seg IH]; [done|]. intros [Hc Hs]%IndexByte_None_cons Hr.
  rewrite str_app_cons. cbn [hasDouble]. rewrite IH by done.
  rewrite (bool_decide_eq_false_2 (c = delim)) by done.
  by destruct (seg +:+ rest).
Qed.

Lemma hasDouble_joinPath (segs : list string) :
  Forall plainSegment segs -> hasDouble (joinPath segs) = false.
Proof.
  induction 1 as [|seg segs [Hne Hplain] _ IH]; [done|].
  cbn [joinPath hasDouble]. rewrite hasDouble_plain_app by done.
  destruct seg as [|c seg]; [done|]. apply IndexByte_None_cons in Hplain as [Hc _].
  rewrite str_app_cons. by rewrite (bool_decide_eq_false_2 (c = delim)).
Qed.

(** The segments of [/seg0/seg1/...] are [seg0], [seg1], ...; such a path is
    already normalized and is not degenerate. *)
Lemma pathSegments_joinPath (segs : list string) :
  segs ≠ [] -> Forall plainSegment segs ->
  removeExtraDelimiters (joinPath segs) = joinPath segs
  /\ pathSegments (joinPath segs) = segs
  /\ ~ degeneratePath (joinPath segs).
Proof.
  intros Hne Hplain.
  assert (removeExtraDelimiters (joinPath segs) = joinPath segs) as Hfix.
  { rewrite removeExtraDelimiters_collapse. apply collapse_fixed; [done|].
    by apply hasDouble_joinPath. }
  split; [done|]. split.
  - unfold pathSegments. rewrite Hfix. clear Hfix.
    induction Hplain as [|seg segs [Hs Hplain] Hrest IH]; [done|].
    cbn [joinPath]. rewrite bool_decide_eq_true_2 by done.
    destruct segs as [|seg' segs'].
    + cbn [joinPath]. rewrite str_app_nil_r. by apply Split_plain.
    + specialize (IH ltac:(done)). cbn [joinPath] in IH |- *.
      rewrite bool_decide_eq_true_2 in IH by done.
      rewrite Split_plain_app by done. by rewrite IH.
  - unfold degeneratePath. rewrite Hfix.
    destruct Hplain as [|seg segs [Hs _] _]; [done|].
    destruct seg as [|c seg]; [done|]. cbn [joinPath]. rewrite str_app_cons.
    intros [?|?]; done.
Qed.

(** [C2] For a path that decodes to [decoded], not degenerate, the request
    [parsePath] returns is fixed by the number of segments: one segment sets
    only [Resource.Type]; two set [Type] and [ID]; three set [Type], [ID]
    and [RelatedResourceType]; four with [relationships] as third segment
    set [Type], [ID] and [RelationshipType]; four with another third
    segment give the error that names [relationships] and that segment.
    Every field not listed is left at its zero value.  The segments of a
    path written [/seg0/seg1/...], with segments that are not empty and hold
    no separator, are [seg0], [seg1], ... *)
Theorem parsePath_segment_table
    (PathUnescape : string -> result string) (Quote : string -> string)
    (path decoded : string) :
  PathUnescape path = Ok decoded ->
  ~ degeneratePath decoded ->
  (forall seg0, pathSegments decoded = [seg0] ->
     parsePath PathUnescape Quote path
     = Ok {| Request_Resource := {| Resource_Type := seg0; Resource_ID := "" |};
             Request_RelationshipType := ""; Request_RelatedResourceType := "";
             Request_Query := None |})
  /\ (forall seg0 seg1, pathSegments decoded = [seg0; seg1] ->
     parsePath PathUnescape Quote path
     = Ok {| Request_Resource := {| Resource_Type := seg0; Resource_ID := seg1 |};
             Request_RelationshipType := ""; Request_RelatedResourceType := "";
             Request_Query := None |})
  /\ (forall seg0 seg1 seg2, pathSegments decoded = [seg0; seg1; seg2] ->
     parsePath PathUnescape Quote path
     = Ok {| Request_Resource := {| Resource_Type := seg0; Resource_ID := seg1 |};
             Request_RelationshipType := ""; Request_RelatedResourceType := seg2;
             Request_Query := None |})
  /\ (forall seg0 seg1 seg3,
        pathSegments decoded = [seg0; seg1; relationshipsRequest; seg3] ->
     parsePath PathUnescape Quote path
     = Ok {| Request_Resource := {| Resource_Type := seg0; Resource_ID := seg1 |};
             Request_RelationshipType := seg3; Request_RelatedResourceType := "";
             Request_Query := None |})
  /\ (forall seg0 seg1 seg2 seg3,
        pathSegments decoded = [seg0; seg1; seg2; seg3] ->
        seg2 ≠ relationshipsRequest ->
     parsePath PathUnescape Quote path
     = Err ("qparser: path format error, expected the segment 3 of the path is to be '"
            +:+ "relationships" +:+ "' but '" +:+ seg2 +:+ "' is received"))
  /\ (forall segs,
        segs ≠ [] -> Forall plainSegment segs -> decoded = joinPath segs ->
        pathSegments decoded = segs).
Proof.
  intros Hdec Hnd.
  pose proof (parsePath_decoded PathUnescape Quote path decoded Hdec Hnd) as H.
  split; [|split; [|split; [|split; [|split]]]];
    try (intros; rewrite H;
         match goal with E : pathSegments _ = _ |- _ => rewrite E end; reflexivity).
  - intros seg0 seg1 seg2 seg3 E Hne. rewrite H, E.
    by rewrite bool_decide_eq_true_2.
  - intros segs Hne Hplain ->. by apply pathSegments_joinPath.
Qed.

Lemma parsePath_segment_table_witness :
  goParsePath "/articles/1/relationships/comments"
  = Ok (mkRequest (mkResource "articles" "1") "comments" "" None)
  /\ goParsePath "/resource/id/should_be_relationships/relationship_type"
     = Err (relationshipsError "should_be_relationships").
Proof.
  assert (~ degeneratePath "/articles/1/relationships/comments") as H1
    by (intros [H|H]; vm_compute in H; discriminate H).
  assert (~ degeneratePath "/resource/id/should_be_relationships/relationship_type") as H2
    by (intros [H|H]; vm_compute in H; discriminate H).
  destruct (parsePath_segment_table url.PathUnescape strconv.Quote
              "/articles/1/relationships/comments" "/articles/1/relationships/comments"
              eq_refl H1) as (_ & _ & _ & Hrel & _ & Hsegs).
  destruct (parsePath_segment_table url.PathUnescape strconv.Quote
              "/resource/id/should_be_relationships/relationship_type"
              "/resource/id/should_be_relationships/relationship_type"
              eq_refl H2) as (_ & _ & _ & _ & Hbad & _).
  split.
  - apply Hrel.
    apply (Hsegs ["articles"; "1"; "relationships"; "comments"]); [done| |reflexivity].
    repeat constructor; done.
  - apply (Hbad "resource" "id" "should_be_relationships" "relationship_type").
    + reflexivity.
    + vm_compute. discriminate.
Defined.

(** ** The assembler *)

Section AssemblerFacts.

Variable PathUnescape : string -> result string.
Variable QueryUnescape : string -> result string.
Variable Quote : string -> string.

Lemma ParseRequest_unfold (params : string) :
  ParseRequest PathUnescape QueryUnescape Quote params =
  match parsePath PathUnescape Quote (split params "?" true).1 with
  | Err msg => Err msg
  | Ok request =>
      match ParseQuery QueryUnescape (split params "?" true).2 with
      | Err msg => Err msg
      | Ok q =>
          Ok (mkRequest (Request_Resource request) (Request_RelationshipType request)
                (Request_RelatedResourceType request) (Some q))
      end
  end.
Proof. unfold ParseRequest. by destruct (split params "?" true). Qed.

Lemma parsePath_error_iff (path : string) :
  (exists msg, parsePath PathUnescape Quote path = Err msg)
  <-> (exists msg, PathUnescape path = Err msg)
      \/ (exists decoded, PathUnescape path = Ok decoded
            /\ (degeneratePath decoded
                \/ 4 < length (pathSegments decoded)
                \/ exists seg0 seg1 seg2 seg3,
                     pathSegments decoded = [seg0; seg1; seg2; seg3]
                     /\ seg2 ≠ relationshipsRequest)).
Proof.
  destruct (PathUnescape path) as [decoded|e] eqn:Hdec.
  2:{ unfold parsePath. rewrite Hdec. split; eauto. }
  destruct (degeneratePath_dec decoded) as [Hd|Hnd].
  { rewrite (parsePath_degenerate _ Quote _ _ Hdec Hd). split; [|by eauto].
    intros _. right. exists decoded. eauto. }
  rewrite (parsePath_decoded _ Quote _ _ Hdec Hnd).
  pose proof (Split_nonempty
    match removeExtraDelimiters decoded with
    | String c p' => if bool_decide (c = delim) then p' else removeExtraDelimiters decoded
    | EmptyString => removeExtraDelimiters decoded
    end delim) as Hne.
  fold (pathSegments decoded) in Hne.
  destruct (pathSegments decoded) as [|a [|b [|c [|d [|e l]]]]] eqn:Hs; [done|..].
  - split; [by intros [? ?]|].
    intros [[? ?]|(? & [= <-] & [?|[Hl|(?&?&?&?&E&?)]])]; try done;
      [rewrite Hs in Hl; simpl in Hl; lia|by rewrite Hs in E].
  - split; [by intros [? ?]|].
    intros [[? ?]|(? & [= <-] & [?|[Hl|(?&?&?&?&E&?)]])]; try done;
      [rewrite Hs in Hl; simpl in Hl; lia|by rewrite Hs in E].
  - split; [by intros [? ?]|].
    intros [[? ?]|(? & [= <-] & [?|[Hl|(?&?&?&?&E&?)]])]; try done;
      [rewrite Hs in Hl; simpl in Hl; lia|by rewrite Hs in E].
  - destruct (bool_decide_reflect (c ≠ relationshipsRequest)) as [Hc|Hc].
    + split; [|by eauto]. intros _. right. exists decoded. split; [done|].
      right; right. by exists a, b, c, d.
    + split; [by intros [? ?]|].
      intros [[? ?]|(? & [= <-] & [?|[Hl|(?&?&?&?&E&?)]])]; try done;
        [rewrite Hs in Hl; simpl in Hl; lia|].
      rewrite Hs in E. by injection E as <- <- <- <-.
  - split; [|by eauto]. intros _. right. exists decoded. split; [done|].
    right; left. rewrite Hs. simpl. lia.
Qed.

Lemma ParseRequest_error_cases (params : string) :
  (exists msg, ParseRequest PathUnescape QueryUnescape Quote params = Err msg)
  <-> (exists msg, parsePath PathUnescape Quote (split params "?" true).1 = Err msg)
      \/ (exists msg, QueryUnescape (split params "?" true).2 = Err msg).
Proof.
  rewrite ParseRequest_unfold, <- (ParseQuery_error QueryUnescape).
  destruct (parsePath PathUnescape Quote (split params "?" true).1) as [r|e].
  - destruct (ParseQuery QueryUnescape (split params "?" true).2) as [q|e].
    + split; [by intros [? ?]|]. by intros [[? ?]|[? ?]].
    + split; eauto.
  - split; eauto.
Qed.

End AssemblerFacts.

(** [C3] [ParseRequest] returns an error exactly when one of the four hard
    failures occurs.  The query part fails only in its decoder: once
    [ParseValues] has produced the multimap, [ParseQuery] returns the query
    with its five projections. *)
Theorem ParseRequest_error_iff_hard_failure
    (PathUnescape QueryUnescape : string -> result string) (Quote : string -> string) :
  (forall params,
     (exists msg, ParseRequest PathUnescape QueryUnescape Quote params = Err msg)
     <-> hardFailure PathUnescape QueryUnescape params)
  /\ (forall query,
        (exists msg, ParseQuery QueryUnescape query = Err msg)
        <-> (exists msg, QueryUnescape query = Err msg))
  /\ (forall query values,
        ParseValues QueryUnescape query = Ok values <->
        ParseQuery QueryUnescape query
        = Ok {| Query_Includes := initIncludes values;
                Query_Fields := initResourceFields values;
                Query_Sort := initSort values;
                Query_Filters := initFilters values;
                Query_Page := initPage values;
                Query_Values := values |}).
Proof.
  split; [|split].
  - intros params. rewrite ParseRequest_error_cases, parsePath_error_iff.
    unfold hardFailure. tauto.
  - apply ParseQuery_error.
  - intros query values. unfold ParseQuery.
    destruct (ParseValues QueryUnescape query) as [v|e]; split; intros H; try done.
    + by injection H as ->.
    + by injection H as _ _ _ _ _ ->.
Qed.

(** [C10] [IsRelationshipRequest] and [IsRelatedResourceRequest] agree on
    every request: both say whether [RelatedResourceType] is non-empty.  A
    request parsed from a four-segment path [type/id/relationships/rel]
    carries [rel] in [RelationshipType] and an empty [RelatedResourceType],
    so [IsRelationshipRequest] is false on it, from [parsePath] and from
    [ParseRequest] alike. *)
Theorem IsRelationshipRequest_false_on_relationships_path
    (PathUnescape QueryUnescape : string -> result string) (Quote : string -> string) :
  (forall r : Request,
     IsRelationshipRequest r = IsRelatedResourceRequest r
     /\ IsRelationshipRequest r = bool_decide (Request_RelatedResourceType r ≠ ""))
  /\ (forall path decoded seg0 seg1 seg3,
        PathUnescape path = Ok decoded ->
        ~ degeneratePath decoded ->
        pathSegments decoded = [seg0; seg1; relationshipsRequest; seg3] ->
        exists r, parsePath PathUnescape Quote path = Ok r
                  /\ Request_RelationshipType r = seg3
                  /\ IsRelationshipRequest r = false)
  /\ (forall params decoded seg0 seg1 seg3 r,
        PathUnescape (split params "?" true).1 = Ok decoded ->
        ~ degeneratePath decoded ->
        pathSegments decoded = [seg0; seg1; relationshipsRequest; seg3] ->
        ParseRequest PathUnescape QueryUnescape Quote params = Ok r ->
        Request_RelationshipType r = seg3 /\ IsRelationshipRequest r = false).
Proof.
  split; [|split].
  - intros r. split; [reflexivity|].
    unfold IsRelationshipRequest.
    destruct (String.eqb_spec (Request_RelatedResourceType r) "") as [->|Hne]; simpl.
    + done.
    + by rewrite bool_decide_eq_true_2.
  - intros path decoded seg0 seg1 seg3 Hdec Hnd Hs.
    rewrite (parsePath_decoded _ Quote _ _ Hdec Hnd), Hs.
    change (bool_decide (relationshipsRequest ≠ relationshipsRequest)) with false.
    eexists. split; [reflexivity|]. by split.
  - intros params decoded seg0 seg1 seg3 r Hdec Hnd Hs.
    rewrite ParseRequest_unfold, (parsePath_decoded _ Quote _ _ Hdec Hnd), Hs.
    change (bool_decide (relationshipsRequest ≠ relationshipsRequest)) with false.
    destruct (ParseQuery QueryUnescape (split params "?" true).2); [|done].
    intros [= <-]. by split.
Qed.

Lemma IsRelationshipRequest_false_on_relationships_path_witness :
  exists r, goParseRequest "/type/id/relationships/rel?include=author" = Ok r
            /\ Request_RelationshipType r = "rel"
            /\ IsRelationshipRequest r = false.
Proof.
  destruct (IsRelationshipRequest_false_on_relationships_path
              url.PathUnescape url.QueryUnescape strconv.Quote) as (_ & _ & H).
  destruct (goParseRequest "/type/id/relationships/rel?include=author") as [r|e] eqn:E;
    [|vm_compute in E; discriminate E].
  exists r. split; [reflexivity|].
  apply (H "/type/id/relationships/rel?include=author" "/type/id/relationships/rel"
           "type" "id" "rel" r); [reflexivity| |reflexivity|exact E].
  intros [D|D]; vm_compute in D; discriminate D.
Defined.

(** ** The query tokenizer *)

Lemma splitAny_next (s chars : string) :
  splitAny s chars =
  match strings.IndexAny s chars with
  | Some i => strings.sliceTo s i :: splitAny (strings.sliceFrom s (i + 1)) chars
  | None => [s]
  end.
Proof.
  induction s as [|c s IH]; [done|]. cbn [splitAny strings.IndexAny].
  destruct (strings.containsByte chars c); [reflexivity|].
  rewrite IH. destruct (strings.IndexAny s chars) as [i|]; reflexivity.
Qed.

Lemma queryFragments_next (c : ascii) (q : string) :
  queryFragments (String c q) =
  (if bool_decide ((nextFragment (String c q)).1 = "") then []
   else [(nextFragment (String c q)).1])
  ++ queryFragments (nextFragment (String c q)).2.
Proof.
  unfold queryFragments, nextFragment. rewrite splitAny_next.
  destruct (strings.IndexAny (String c q) "&;") as [i|]; cbn [fst snd].
  - rewrite filter_cons. case_bool_decide; case_decide; done.
  - rewrite filter_cons. case_bool_decide; case_decide; done.
Qed.

Lemma lookup_appendValue (kv : Value) (values : Values) (K : string) :
  appendValue kv values !! K =
  if decide (Value_TopLevelKey kv = K) then Some (default [] (values !! K) ++ [kv])
  else values !! K.
Proof.
  unfold appendValue. case_decide as HK.
  - subst K. rewrite lookup_insert_eq.
    destruct (values !! Value_TopLevelKey kv) as [l|] eqn:E; [by rewrite E|].
    by rewrite lookup_insert_eq.
  - rewrite lookup_insert_ne by done.
    destruct (values !! Value_TopLevelKey kv); [done|]. by rewrite lookup_insert_ne.
Qed.

Lemma ParseValues_loop_fragments (query : string) (values : Values) :
  ParseValues_loop query values =
  foldl (fun values kv => appendValue kv values) values
    (fragmentValue <$> queryFragments query).
Proof.
  funelim (ParseValues_loop query values); [done|].
  rewrite queryFragments_next, fmap_app, foldl_app.
  rewrite H. f_equal. unfold addFragment. by case_bool_decide.
Qed.

Lemma foldl_appendValue_lookup (kvs : list Value) (values : Values) (K : string) :
  default [] (foldl (fun values kv => appendValue kv values) values kvs !! K)
  = default [] (values !! K) ++ filter (fun kv => Value_TopLevelKey kv = K) kvs.
Proof.
  revert values; induction kvs as [|kv kvs IH]; intros values; simpl.
  - by rewrite app_nil_r.
  - rewrite IH, lookup_appendValue, filter_cons.
    case_decide; simpl; [by rewrite <- app_assoc|done].
Qed.

Lemma foldl_appendValue_populated (kvs : list Value) (values : Values) :
  populated values ->
  populated (foldl (fun values kv => appendValue kv values) values kvs).
Proof.
  revert values; induction kvs as [|kv kvs IH]; intros values Hp; simpl; [done|].
  apply IH. intros K. rewrite lookup_appendValue. case_decide; [|apply Hp].
  intros [= E]. by destruct (default [] (values !! K)).
Qed.

Lemma ParseValues_loop_lookup (query K : string) :
  ParseValues_loop query ∅ !! K =
  match filter (fun kv => Value_TopLevelKey kv = K) (fragmentValue <$> queryFragments query) with
  | [] => None
  | l => Some l
  end.
Proof.
  pose proof (foldl_appendValue_lookup (fragmentValue <$> queryFragments query) ∅ K) as H.
  pose proof (foldl_appendValue_populated (fragmentValue <$> queryFragments query) ∅) as Hp.
  rewrite <- ParseValues_loop_fragments in H, Hp.
  rewrite lookup_empty in H. simpl in H. rewrite <- H.
  specialize (Hp ltac:(intros K'; by rewrite lookup_empty) K).
  destruct (ParseValues_loop query ∅ !! K) as [[|kv l]|]; done.
Qed.

(** [C6] When the decoder accepts the empty string as itself,
    [ParseValues ""] is the empty multimap and no error.  For every query
    the decoder accepts, the sequence stored under a key is the sequence of
    the records of the fragments of the decoded query with that top key, in
    the order in which the fragments occur (and a key no fragment has is
    absent); so ["key=v1&key=v2"] stores [v1] before [v2] under [key]. *)
Theorem ParseValues_preserves_occurrence_order
    (QueryUnescape : string -> result string) :
  (QueryUnescape "" = Ok "" -> ParseValues QueryUnescape "" = Ok ∅)
  /\ (forall query decoded,
        QueryUnescape query = Ok decoded ->
        exists values,
          ParseValues QueryUnescape query = Ok values
          /\ forall K, values !! K = match valuesUnder K decoded with
                                     | [] => None
                                     | l => Some l
                                     end)
  /\ (QueryUnescape "key=v1&key=v2" = Ok "key=v1&key=v2" ->
      exists values,
        ParseValues QueryUnescape "key=v1&key=v2" = Ok values
        /\ values !! "key" = Some [mkValue "key" None "v1"; mkValue "key" None "v2"]).
Proof.
  split; [|split].
  - intros H. unfold ParseValues. rewrite H. by simp ParseValues_loop.
  - intros query decoded H. unfold ParseValues. rewrite H.
    eexists. split; [reflexivity|]. intros K.
    apply ParseValues_loop_lookup.
  - intros H. unfold ParseValues. rewrite H.
    eexists. split; [reflexivity|].
    rewrite bool_decide_eq_false_2 by done.
    rewrite ParseValues_loop_lookup. reflexivity.
Qed.

Lemma ParseValues_preserves_occurrence_order_witness :
  goParseValues "" = Ok ∅
  /\ (exists values,
        goParseValues "page[size]=10&sort=-a;page[number]=2" = Ok values
        /\ values !! "page" = Some [mkValue "page" (Some ["size"]) "10";
                                    mkValue "page" (Some ["number"]) "2"])
  /\ (exists values,
        goParseValues "key=v1&key=v2" = Ok values
        /\ values !! "key" = Some [mkValue "key" None "v1"; mkValue "key" None "v2"]).
Proof.
  destruct (ParseValues_preserves_occurrence_order url.QueryUnescape) as (H1 & H2 & H3).
  split; [exact (H1 eq_refl)|]. split; [|exact (H3 eq_refl)].
  destruct (H2 "page[size]=10&sort=-a;page[number]=2"
               "page[size]=10&sort=-a;page[number]=2" eq_refl) as (values & Hv & Hk).
  exists values. split; [exact Hv|]. rewrite Hk. reflexivity.
Defined.

(** [C8] In the multimap [ParseValues] returns, every record stored under a
    key has that key as its [TopLevelKey]. *)
Theorem ParseValues_TopLevelKey_invariant
    (QueryUnescape : string -> result string)
    (query : string) (values : Values) (K : string) (l : list Value) (kv : Value) :
  ParseValues QueryUnescape query = Ok values ->
  values !! K = Some l ->
  kv ∈ l ->
  Value_TopLevelKey kv = K.
Proof.
  unfold ParseValues. destruct (QueryUnescape query) as [decoded|e]; [|done].
  intros [= <-]. rewrite ParseValues_loop_lookup. intros Hl Hin.
  assert (kv ∈ filter (fun kv => Value_TopLevelKey kv = K)
            (fragmentValue <$> queryFragments (stripQuestion decoded)))
    as Hf.
  { unfold stripQuestion.
    destruct (filter _ _) as [|x xs]; [done|]. by injection Hl as <-. }
  by apply list_elem_of_filter in Hf as [? _].
Qed.

Lemma ParseValues_TopLevelKey_invariant_witness :
  Value_TopLevelKey (mkValue "key" (Some ["property"; "sub"]) "param2") = "key".
Proof.
  apply (ParseValues_TopLevelKey_invariant url.QueryUnescape
           "key=value&key[property]=param;key[property][sub]=param2"
           (ParseValues_loop "key=value&key[property]=param;key[property][sub]=param2" ∅)
           "key"
           [mkValue "key" None "value"; mkValue "key" (Some ["property"]) "param";
            mkValue "key" (Some ["property"; "sub"]) "param2"]).
  - reflexivity.
  - vm_compute. reflexivity.
  - apply list_elem_of_In. simpl. tauto.
Defined.

(** ** The entries a builder reads from a value *)

Lemma Split_next (s : string) (sep : ascii) :
  strings.Split s sep =
  match strings.IndexByte s sep with
  | Some i => strings.sliceTo s i :: strings.Split (strings.sliceFrom s (i + 1)) sep
  | None => [s]
  end.
Proof.
  induction s as [|c s IH]; [done|]. cbn [strings.Split strings.IndexByte].
  destruct (decide (c = sep)); [reflexivity|].
  rewrite IH. destruct (strings.IndexByte s sep) as [i|]; reflexivity.
Qed.

(** The loop shared by [initSort] and [initIncludes] runs its body on the
    comma-separated entries of the value, in order, and stops at the first
    empty entry or at the end of the value. *)
Lemma loopEntries_reads_upToEmpty {St : Type} (sep : ascii) (body : string -> St -> St)
    (s : string) (st : St) :
  loopEntries sep body (split s sep true).1 (split s sep true).2 st
  = foldl (fun st entry => body entry st) st (upToEmpty (strings.Split s sep)).
Proof.
  remember (String.length s) as n eqn:Hn.
  revert s st Hn. induction (lt_wf n) as [n _ IH]. intros s st ->.
  rewrite Split_next. unfold split at 1 2.
  destruct (strings.IndexByte s sep) as [i|] eqn:Hi; cbn [fst snd].
  - destruct (strings.sliceTo s i) as [|c cur'] eqn:Hcur.
    + by simp loopEntries.
    + simp loopEntries. cbn [upToEmpty foldl].
      rewrite bool_decide_eq_false_2 by done. cbn [foldl].
      eapply IH; [|reflexivity].
      rewrite sliceFrom_length. apply IndexByte_lt in Hi. lia.
  - destruct s as [|c s'].
    + by simp loopEntries.
    + simp loopEntries. cbn [upToEmpty foldl].
      rewrite bool_decide_eq_false_2 by done.
      change (split "" sep true) with ("", ""). cbn [fst snd foldl].
      by simp loopEntries.
Qed.

(** ** The sort builder *)

Lemma sort_body_inv (entry : string) (st : sortState) (acc : list Sort) :
  sortInv st acc -> sortInv (initSort_body entry st) (addField acc (parseField entry)).
Proof.
  intros Hinv. pose proof Hinv as (Hs & Hd & Hr).
  unfold initSort_body, addField, parseField.
  assert (forall order name,
    sortInv (if bool_decide (name ∈ ss_duplicates st) then st
         else if bool_decide (name = "") then st
         else mkSortState (ss_sort st ++ [mkSort name order]) true
                ({[name]} ∪ ss_duplicates st))
        (if bool_decide (name ∈ Sort_FieldName <$> acc) then acc
         else if bool_decide (name = "") then acc
         else acc ++ [mkSort name order])) as H.
  { intros order name.
    rewrite (bool_decide_ext _ (name ∈ Sort_FieldName <$> acc)) by apply Hd.
    destruct (bool_decide (name ∈ Sort_FieldName <$> acc)); [done|].
    destruct (bool_decide (name = "")); [done|].
    split; [by rewrite Hs|]. split.
    - intros x. cbn [ss_duplicates].
      rewrite fmap_app, elem_of_app, elem_of_union, elem_of_singleton, Hd.
      cbn [fmap list_fmap Sort_FieldName]. rewrite list_elem_of_singleton. tauto.
    - simpl. symmetry. apply bool_decide_eq_true_2. by destruct acc. }
  destruct entry as [|c name]; [apply H|].
  destruct (bool_decide (c = sortDescChar)); apply H.
Qed.

Lemma sort_entries_inv (entries : list string) (st : sortState) (acc : list Sort) :
  sortInv st acc ->
  sortInv (foldl (fun st entry => initSort_body entry st) st entries)
      (foldl addField acc (parseField <$> entries)).
Proof.
  revert st acc; induction entries as [|e entries IH]; intros st acc H; [done|].
  simpl. apply IH. by apply sort_body_inv.
Qed.

Lemma sort_values_inv (vals : list Value) (st : sortState) (acc : list Sort) :
  sortInv st acc ->
  sortInv (foldl (fun st val => initSort_value val st) st vals)
      (foldl addField acc
         (flat_map (fun val =>
                      if sortEligible val
                      then parseField <$> upToEmpty (strings.Split (Value_Value val) sortDelimiter)
                      else []) vals)).
Proof.
  revert st acc; induction vals as [|val vals IH]; intros st acc H; [done|].
  cbn [foldl flat_map]. rewrite foldl_app. apply IH.
  unfold initSort_value, sortEligible.
  destruct (bool_decide (Value_Value val = "")
            || negb (Nat.eqb (len (Value_NestedKeys val)) 0)); [done|].
  cbn [negb].
  pose proof (loopEntries_reads_upToEmpty sortDelimiter initSort_body (Value_Value val) st) as E.
  destruct (split (Value_Value val) sortDelimiter true) as [cur rest].
  cbn [fst snd] in E. rewrite E. by apply sort_entries_inv.
Qed.

(** What [initSort] computes: the deduplicated fields, where of each value
    only the fields before its first empty field are read. *)
Lemma initSort_reads_upToEmpty (values : Values) :
  initSort values =
  match values !! sortKeyword with
  | None => None
  | Some vals => nonEmpty (dedupFields upToEmpty vals)
  end.
Proof.
  unfold initSort. destruct (values !! sortKeyword) as [vals|]; [|done].
  destruct (sort_values_inv vals (mkSortState [] false ∅) []) as (Hs & _ & Hr).
  { split; [done|]. split; [|done]. intros name. set_solver. }
  cbv zeta. rewrite Hr, Hs. fold (dedupFields upToEmpty vals).
  by destruct (dedupFields upToEmpty vals).
Qed.

Lemma upToEmpty_id (l : list string) : "" ∉ l -> upToEmpty l = l.
Proof.
  induction l as [|x l IH]; [done|]. intros [Hx Hl]%not_elem_of_cons. simpl.
  rewrite bool_decide_eq_false_2 by done. by rewrite IH.
Qed.

(** On values without an empty field the builder is the one of the
    specification. *)
Lemma initSort_sortSpec (values : Values) :
  (forall vals val, values !! sortKeyword = Some vals -> val ∈ vals ->
     "" ∉ strings.Split (Value_Value val) sortDelimiter) ->
  initSort values = sortSpec values.
Proof.
  intros H. rewrite initSort_reads_upToEmpty. unfold sortSpec.
  destruct (values !! sortKeyword) as [vals|]; [|done].
  specialize (H vals). f_equal. unfold dedupFields. f_equal.
  assert (forall val, val ∈ vals ->
            "" ∉ strings.Split (Value_Value val) sortDelimiter) as H' by eauto.
  clear H. induction vals as [|val vals IH]; [done|]. cbn [flat_map].
  rewrite IH by (intros; apply H'; by right).
  rewrite upToEmpty_id by (apply H'; by left). done.
Qed.

Lemma addField_names (acc : list Sort) (f : Sort) :
  NoDup (Sort_FieldName <$> acc) -> NoDup (Sort_FieldName <$> addField acc f).
Proof.
  intros H. unfold addField. case_bool_decide; [done|]. case_bool_decide; [done|].
  rewrite fmap_app. apply NoDup_app. split; [done|]. split.
  - intros x Hx [->|[]%elem_of_nil]%elem_of_cons. done.
  - apply NoDup_singleton.
Qed.

(** No field name occurs twice in the result of [initSort]. *)
Lemma initSort_NoDup (values : Values) (sort : list Sort) :
  initSort values = Some sort -> NoDup (Sort_FieldName <$> sort).
Proof.
  rewrite initSort_reads_upToEmpty.
  destruct (values !! sortKeyword) as [vals|]; [|done].
  assert (NoDup (Sort_FieldName <$> dedupFields upToEmpty vals)) as H.
  { unfold dedupFields. generalize (flat_map (fun val =>
      if sortEligible val
      then parseField <$> upToEmpty (strings.Split (Value_Value val) sortDelimiter)
      else []) vals) as fs.
    assert (NoDup (Sort_FieldName <$> @nil Sort)) as H0 by constructor.
    revert H0. generalize (@nil Sort) as acc.
    intros acc H0 fs; revert acc H0; induction fs as [|f fs IH]; intros acc H0; [done|].
    simpl. apply IH. by apply addField_names. }
  destruct (dedupFields upToEmpty vals); [done|]. by intros [= <-].
Qed.

(** [C4] [initSort] stops reading a value at its first empty field.  On the
    values ["a,,-b"] and ["b"] of the [sort] key the first occurrence of
    [b] is descending, and deduplicating over all the fields of all the
    values keeps [b] descending; [initSort] never reads [-b] and returns
    [b] ascending, from the second value.  The example of the specification
    evaluates as it says. *)
Theorem initSort_stops_at_empty_field :
  initSort {[ "sort" := [mkValue "sort" None "a,,-b"; mkValue "sort" None "b"] ]}
  = Some [mkSort "a" OrderAsc; mkSort "b" OrderAsc]
  /\ sortSpec
       {[ "sort" := [mkValue "sort" None "a,,-b"; mkValue "sort" None "b"] ]}
     = Some [mkSort "a" OrderAsc; mkSort "b" OrderDesc]
  /\ (exists q, goParseQuery "sort=a,,-b&sort=b" = Ok q
                /\ Query_Sort q = Some [mkSort "a" OrderAsc; mkSort "b" OrderAsc])
  /\ initSort {[ "sort" := [mkValue "sort" None "createdAt,-title,duplicate,duplicate";
                            mkValue "sort" None "author,-duplicate"] ]}
     = Some [mkSort "createdAt" OrderAsc; mkSort "title" OrderDesc;
             mkSort "duplicate" OrderAsc; mkSort "author" OrderAsc].
Proof.
  split; [vm_compute; reflexivity|].
  split; [vm_compute; reflexivity|].
  split; [|vm_compute; reflexivity].
  eexists. split; [reflexivity|]. vm_compute. reflexivity.
Qed.

(** ** The resource-fields builder *)

Lemma fields_items_loop (items toAppend base : list string) (byResource : gset string) :
  (forall x, x ∈ byResource <-> x ∈ base ++ toAppend) ->
  base ++ (initResourceFields_items items toAppend byResource).1
  = foldl addNew (base ++ toAppend) (filter (fun item => item ≠ "") items)
  /\ (forall x, x ∈ (initResourceFields_items items toAppend byResource).2
                <-> x ∈ base ++ (initResourceFields_items items toAppend byResource).1).
Proof.
  revert toAppend byResource; induction items as [|item items IH];
    intros toAppend byResource Hset; [done|].
  cbn [initResourceFields_items]. rewrite filter_cons.
  destruct (bool_decide_reflect (item = "")) as [->|Hne].
  { rewrite decide_False by (intros H; by apply H). by apply IH. }
  rewrite decide_True by done. cbn [foldl]. unfold addNew at 2.
  rewrite (bool_decide_ext (item ∈ byResource) (item ∈ base ++ toAppend)) by apply Hset.
  destruct (bool_decide_reflect (item ∈ base ++ toAppend)) as [Hin|Hnin].
  { by apply IH. }
  rewrite <- app_assoc. apply IH.
  intros x. rewrite elem_of_union, elem_of_singleton, Hset, !elem_of_app,
    list_elem_of_singleton. tauto.
Qed.

Lemma fieldsFor_snoc (accepted : string -> bool) (rt : string) (vals : list Value)
    (val : Value) :
  fieldsFor accepted rt (vals ++ [val])
  = foldl addNew (fieldsFor accepted rt vals) (itemsOf accepted rt val).
Proof.
  unfold fieldsFor. rewrite flat_map_app, foldl_app. simpl. by rewrite app_nil_r.
Qed.

Lemma fieldsInv_skip (st : fieldsState) (vals : list Value) (val : Value) :
  (forall rt, itemsOf notEmpty rt val = []) -> fieldsInv st vals -> fieldsInv st (vals ++ [val]).
Proof.
  intros Hno (Hf & Hd & Hr).
  assert (forall rt, fieldsFor notEmpty rt (vals ++ [val]) = fieldsFor notEmpty rt vals) as E.
  { intros rt. by rewrite fieldsFor_snoc, Hno. }
  split; [|split].
  - intros rt. by rewrite E.
  - intros rt x. by rewrite E.
  - rewrite Hr. by setoid_rewrite E.
Qed.

Lemma nonEmpty_Some {A} (l k : list A) : nonEmpty l = Some k -> l = k /\ l ≠ [].
Proof. destruct l; [done|]. by intros [= <-]. Qed.

Lemma nonEmpty_None {A} (l : list A) : nonEmpty l = None -> l = [].
Proof. by destruct l. Qed.

Lemma nonEmpty_app_cons {A} (l k : list A) (x : A) :
  nonEmpty (l ++ x :: k) = Some (l ++ x :: k).
Proof. by destruct l. Qed.

Lemma fields_body_inv (st : fieldsState) (vals : list Value) (val : Value) :
  fieldsInv st vals -> fieldsInv (initResourceFields_body val st) (vals ++ [val]).
Proof.
  intros Hinv. unfold initResourceFields_body.
  destruct (Value_NestedKeys val) as [[|rt0 [|? ?]]|] eqn:Hk;
    try (apply fieldsInv_skip; [|done]; intros rt; unfold itemsOf; by rewrite Hk).
  destruct (bool_decide_reflect (Value_Value val = "")) as [Hv|Hv].
  { apply fieldsInv_skip; [|done]. intros rt. unfold itemsOf, notEmpty. rewrite Hk, Hv.
    by rewrite andb_false_r. }
  destruct Hinv as (Hf & Hd & Hr).
  assert (itemsOf notEmpty rt0 val
          = filter (fun item => item ≠ "")
              (strings.Split (Value_Value val) fieldsDelimiter)) as Hrt0.
  { unfold itemsOf, notEmpty. rewrite Hk.
    rewrite (bool_decide_eq_true_2 (rt0 = rt0)) by done.
    by rewrite (bool_decide_eq_false_2 (Value_Value val = "")). }
  assert (forall rt, rt ≠ rt0 -> itemsOf notEmpty rt val = []) as Hother.
  { intros rt Hne. unfold itemsOf. rewrite Hk.
    by rewrite (bool_decide_eq_false_2 (rt0 = rt)). }
  destruct (fields_items_loop (strings.Split (Value_Value val) fieldsDelimiter) []
              (fieldsFor notEmpty rt0 vals)
              (default ∅ (fs_duplicates st !! rt0))) as [Happ Hset].
  { intros x. by rewrite app_nil_r. }
  rewrite app_nil_r, <- Hrt0, <- fieldsFor_snoc in Happ.
  destruct (initResourceFields_items _ [] _) as [toAppend byResource].
  cbn [fst snd] in Happ, Hset.
  assert (forall rt x,
            x ∈ default ∅ (<[rt0 := byResource]> (fs_duplicates st) !! rt)
            <-> x ∈ fieldsFor notEmpty rt (vals ++ [val])) as Hd'.
  { intros rt x. destruct (decide (rt = rt0)) as [->|Hne].
    - rewrite lookup_insert_eq. simpl. by rewrite Hset, Happ.
    - rewrite lookup_insert_ne by done. by rewrite fieldsFor_snoc, Hother. }
  destruct toAppend as [|item toAppend].
  - rewrite app_nil_r in Happ. split; [|split]; cbn [fs_fields fs_returnFields fs_duplicates].
    + intros rt. destruct (decide (rt = rt0)) as [->|Hne].
      * by rewrite <- Happ.
      * by rewrite fieldsFor_snoc, Hother.
    + apply Hd'.
    + rewrite Hr. split; intros [rt H]; exists rt.
      * destruct (decide (rt = rt0)) as [->|Hne]; [by rewrite <- Happ|].
        by rewrite fieldsFor_snoc, Hother.
      * destruct (decide (rt = rt0)) as [->|Hne]; [by rewrite Happ|].
        by rewrite fieldsFor_snoc, Hother in H.
  - split; [|split]; cbn [fs_fields fs_returnFields fs_duplicates].
    + intros rt. destruct (decide (rt = rt0)) as [->|Hne].
      * rewrite <- Happ. specialize (Hf rt0).
        destruct (fs_fields st !! rt0) as [l|] eqn:El.
        -- symmetry in Hf. apply nonEmpty_Some in Hf as [-> _].
           by rewrite lookup_insert_eq, nonEmpty_app_cons.
        -- symmetry in Hf. apply nonEmpty_None in Hf as ->.
           by rewrite lookup_insert_eq.
      * rewrite fieldsFor_snoc, Hother by done. cbn [foldl]. rewrite <- Hf.
        destruct (fs_fields st !! rt0); by rewrite lookup_insert_ne.
    + apply Hd'.
    + split; [|done]. intros _. exists rt0. rewrite <- Happ.
      by destruct (fieldsFor notEmpty rt0 vals).
Qed.

Lemma fields_loop_inv (vals : list Value) :
  fieldsInv (foldl (fun st val => initResourceFields_body val st)
         (mkFieldsState ∅ ∅ false) vals) vals.
Proof.
  induction vals as [|val vals IH] using rev_ind.
  - split; [|split]; simpl.
    + intros rt. by rewrite lookup_empty.
    + intros rt x. rewrite lookup_empty. simpl. set_solver.
    + split; [done|]. by intros [rt H].
  - rewrite foldl_app. simpl. by apply fields_body_inv.
Qed.

Lemma foldl_addNew_prefix (acc l : list string) :
  acc `prefix_of` foldl addNew acc l.
Proof.
  revert acc; induction l as [|x l IH]; intros acc; [done|]. simpl.
  etrans; [|apply IH]. unfold addNew.
  case_bool_decide; [done|]. by apply prefix_app_r.
Qed.

Lemma foldl_addNew_NoDup (acc l : list string) :
  NoDup acc -> NoDup (foldl addNew acc l).
Proof.
  revert acc; induction l as [|x l IH]; intros acc H; [done|]. simpl.
  apply IH. unfold addNew. case_bool_decide; [done|].
  apply NoDup_app. split; [done|]. split; [|apply NoDup_singleton].
  by intros y Hy ->%list_elem_of_singleton.
Qed.

Lemma foldl_addNew_elem_of (acc l : list string) (x : string) :
  x ∈ foldl addNew acc l <-> x ∈ acc \/ x ∈ l.
Proof.
  revert acc; induction l as [|y l IH]; intros acc; simpl.
  - rewrite elem_of_nil. tauto.
  - rewrite IH, elem_of_cons. unfold addNew.
    case_bool_decide as Hy.
    + split; [tauto|]. intros [?|[->|?]]; tauto.
    + rewrite elem_of_app, list_elem_of_singleton. tauto.
Qed.

(** The claim of [C7] as it is worded, with values accepted when they are
    non-empty after trimming, fails: for [fields[articles]] with the value
    [" "], which is empty after trimming, the claim has no field for
    [articles], and [initResourceFields] returns the one field [" "]. *)
Lemma initResourceFields_accepts_blank_value :
  trimSpace " " = ""
  /\ fieldsSpec notBlank
       {[ "fields" := [mkValue "fields" (Some ["articles"]) " "] ]} "articles" = None
  /\ FieldsByResource
       (initResourceFields {[ "fields" := [mkValue "fields" (Some ["articles"]) " "] ]})
       "articles" = Some [" "]
  /\ ~ (forall values resourceType,
          FieldsByResource (initResourceFields values) resourceType
          = fieldsSpec notBlank values resourceType).
Proof.
  split; [reflexivity|]. split; [reflexivity|]. split; [reflexivity|].
  intros H.
  specialize (H {[ "fields" := [mkValue "fields" (Some ["articles"]) " "] ]} "articles").
  vm_compute in H. discriminate H.
Qed.

(** [C7], amended: [initResourceFields] accepts the [fields] entries with
    exactly one nested key and a non-empty value, the value taken as it is,
    without trimming.  For each resource type the result is the list of the
    comma-separated, non-empty entries of the accepted values, in order,
    each name kept at its first occurrence over all the values; so the list
    holds no name twice, holds exactly the names some accepted value names,
    and further values only append to it.  A resource type with no field is
    absent, and the result is [nil] when every resource type is. *)
Theorem initResourceFields_unions_fields (values : Values) :
  (forall resourceType,
     FieldsByResource (initResourceFields values) resourceType
     = fieldsSpec notEmpty values resourceType)
  /\ (initResourceFields values = None
      <-> forall resourceType,
            fieldsSpec notEmpty values resourceType = None)
  /\ (forall resourceType vals,
        NoDup (fieldsFor notEmpty resourceType vals)
        /\ (forall name,
              name ∈ fieldsFor notEmpty resourceType vals
              <-> exists val, val ∈ vals
                    /\ Value_NestedKeys val = Some [resourceType]
                    /\ Value_Value val ≠ ""
                    /\ name ≠ ""
                    /\ name ∈ strings.Split (Value_Value val) fieldsDelimiter)
        /\ (forall val,
              fieldsFor notEmpty resourceType vals
              `prefix_of`
              fieldsFor notEmpty resourceType (vals ++ [val]))).
Proof.
  assert (forall resourceType,
     FieldsByResource (initResourceFields values) resourceType
     = fieldsSpec notEmpty values resourceType) as Hlookup.
  { intros rt. unfold initResourceFields, fieldsSpec.
    destruct (values !! fieldsKeyword) as [vals|]; [|done].
    destruct (fields_loop_inv vals) as (Hf & _ & Hr). cbv zeta.
    destruct (fs_returnFields _) eqn:E; simpl; [apply Hf|].
    destruct (fieldsFor notEmpty rt vals) eqn:E'; [done|].
    assert (false = true) as F; [|done]. apply Hr. exists rt. by rewrite E'. }
  split; [exact Hlookup|]. split.
  - split.
    + intros E rt. by rewrite <- Hlookup, E.
    + intros H. unfold initResourceFields, fieldsSpec in *.
      destruct (values !! fieldsKeyword) as [vals|]; [|done].
      destruct (fields_loop_inv vals) as (_ & _ & Hr). cbv zeta.
      destruct (fs_returnFields _); [|done].
      destruct Hr as [Hr _]. destruct (Hr eq_refl) as [rt Hrt].
      specialize (H rt). by apply nonEmpty_None in H.
  - intros rt vals. split; [|split].
    + apply foldl_addNew_NoDup. constructor.
    + intros name. unfold fieldsFor.
      rewrite foldl_addNew_elem_of, elem_of_nil, list_elem_of_In, in_flat_map.
      setoid_rewrite <- list_elem_of_In. split.
      * intros [[]|(val & Hval & Hin)]. exists val. split; [done|].
        unfold itemsOf, notEmpty in Hin.
        destruct (Value_NestedKeys val) as [[|rt0 [|? ?]]|];
          try (simpl in Hin; by apply elem_of_nil in Hin).
        destruct (bool_decide_reflect (rt0 = rt)) as [E|E];
          [subst rt0|simpl in Hin; by apply elem_of_nil in Hin].
        destruct (bool_decide_reflect (Value_Value val = ""));
          [simpl in Hin; by apply elem_of_nil in Hin|].
        simpl in Hin. apply list_elem_of_filter in Hin as [? ?]. done.
      * intros (val & Hval & Hk & Hv & Hn & Hin). right. exists val. split; [done|].
        unfold itemsOf, notEmpty. rewrite Hk.
        rewrite (bool_decide_eq_true_2 (rt = rt)) by done.
        rewrite (bool_decide_eq_false_2 (Value_Value val = "")) by done.
        simpl. by apply list_elem_of_filter.
    + intros val. rewrite fieldsFor_snoc. apply foldl_addNew_prefix.
Qed.

(** ** The include-tree builder *)

Lemma expandInclude_Relation (root : Include) (queryPart : string) :
  Include_Relation (expandInclude root queryPart) = Include_Relation root.
Proof.
  destruct queryPart as [|c q]; simp expandInclude; [done|].
  destruct (Include_Includes root) as [|inc incs]; [done|]. cbv zeta.
  match goal with |- context [findRelation ?a ?b] => destruct (findRelation a b) as [i|] end;
    [|done].
  match goal with |- context [?l !! i] => by destruct (l !! i) end.
Qed.

Lemma findRelation_Some (incs : list Include) (cur : string) (i : nat) :
  findRelation incs cur = Some i ->
  exists node, incs !! i = Some node /\ Include_Relation node = cur.
Proof.
  revert i; induction incs as [|inc incs IH]; intros i; simpl; [done|].
  case_bool_decide as E.
  - intros [= <-]. by exists inc.
  - destruct (findRelation incs cur) as [j|]; simpl; [|done].
    intros [= <-]. by apply IH.
Qed.

Lemma findRelation_None (incs : list Include) (cur : string) :
  findRelation incs cur = None <-> cur ∉ Include_Relation <$> incs.
Proof.
  induction incs as [|inc incs IH]; simpl.
  - split; [intros _; apply not_elem_of_nil|done].
  - rewrite not_elem_of_cons. case_bool_decide as E.
    + split; [done|]. intros [H _]. by destruct H.
    + destruct (findRelation incs cur) as [j|]; simpl.
      * split; [done|]. intros [_ H]. by apply IH in H.
      * split; [|done]. intros _. split; [done|]. by apply IH.
Qed.

Lemma findRelation_names (f1 f2 : list Include) (cur : string) :
  Include_Relation <$> f1 = Include_Relation <$> f2 ->
  findRelation f1 cur = findRelation f2 cur.
Proof.
  revert f2; induction f1 as [|a f1 IH]; intros [|b f2]; simpl; try done.
  intros [= Hab Hf]. rewrite Hab. by rewrite (IH f2 Hf).
Qed.

Lemma findRelation_snoc (forest : list Include) (node : Include) (cur : string) :
  findRelation (forest ++ [node]) cur =
  match findRelation forest cur with
  | Some i => Some i
  | None => if bool_decide (Include_Relation node = cur) then Some (length forest) else None
  end.
Proof.
  induction forest as [|a forest IH]; simpl.
  - by destruct (bool_decide (Include_Relation node = cur)).
  - destruct (bool_decide (Include_Relation a = cur)); [done|]. rewrite IH.
    destruct (findRelation forest cur); simpl; [done|].
    by destruct (bool_decide (Include_Relation node = cur)).
Qed.

Lemma names_insert (incs : list Include) (i : nat) (node node' : Include) :
  incs !! i = Some node ->
  Include_Relation node' = Include_Relation node ->
  Include_Relation <$> <[i := node']> incs = Include_Relation <$> incs.
Proof.
  intros Hi Hr. rewrite list_fmap_insert, Hr.
  apply list_insert_id. by rewrite list_lookup_fmap, Hi.
Qed.

Lemma expandInclude_unique (root : Include) (queryPart : string) :
  uniqueRelations root -> uniqueRelations (expandInclude root queryPart).
Proof.
  remember (String.length queryPart) as n eqn:Hn.
  revert root queryPart Hn. induction (lt_wf n) as [n _ IH]. intros root queryPart -> Hu.
  destruct queryPart as [|c q]; [by simp expandInclude|]. simp expandInclude.
  pose proof (split_snd_shorter c q nestedRelationDelimiter) as Hlt.
  set (cur := (split (String c q) nestedRelationDelimiter true).1).
  set (rest := (split (String c q) nestedRelationDelimiter true).2) in *.
  assert (forall node, uniqueRelations node -> uniqueRelations (expandInclude node rest))
    as IH' by (intros node; by eapply IH).
  assert (uniqueRelations (mkInclude cur [])) as Hleaf
    by (constructor; [constructor|constructor]).
  destruct Hu as [relation incs Hnd Hall]. cbn [Include_Includes Include_Relation].
  destruct incs as [|inc incs].
  { constructor; [apply NoDup_singleton|]. constructor; [by apply IH'|constructor]. }
  cbv zeta. destruct (findRelation (inc :: incs) cur) as [i|] eqn:Hfind.
  - apply findRelation_Some in Hfind as (node & Hi & Hr). rewrite Hi.
    constructor.
    + by rewrite (names_insert _ _ node) by (by rewrite ?expandInclude_Relation).
    + apply Forall_insert; [done|]. apply IH'.
      eapply Forall_lookup_1; [apply Hall|apply Hi].
  - apply findRelation_None in Hfind. constructor.
    + rewrite fmap_app. apply NoDup_app. split; [done|]. split; [|apply NoDup_singleton].
      intros x Hx Hx'. cbn in Hx'. apply list_elem_of_singleton in Hx'.
      rewrite expandInclude_Relation in Hx'. by subst x.
    + apply Forall_app. split; [done|]. constructor; [by apply IH'|constructor].
Qed.

Lemma addChain_unique (forest : list Include) (chain : string) :
  uniqueForest forest -> uniqueForest (addChain forest chain).
Proof.
  intros [Hnd Hall]. unfold addChain.
  destruct (findRelation forest (split chain nestedRelationDelimiter true).1)
    as [i|] eqn:Hfind.
  - apply findRelation_Some in Hfind as (node & Hi & Hr).
    unfold deref. rewrite Hi. cbn [default]. split.
    + by rewrite (names_insert _ _ node) by (by rewrite ?expandInclude_Relation).
    + apply Forall_insert; [done|]. apply expandInclude_unique.
      eapply Forall_lookup_1; [apply Hall|apply Hi].
  - apply findRelation_None in Hfind. split.
    + rewrite fmap_app. apply NoDup_app. split; [done|]. split; [|apply NoDup_singleton].
      intros x Hx Hx'. cbn in Hx'. apply list_elem_of_singleton in Hx'.
      rewrite expandInclude_Relation in Hx'. by subst x.
    + apply Forall_app. split; [done|]. constructor; [|constructor].
      apply expandInclude_unique. constructor; constructor.
Qed.

Lemma include_body_hinv (cur : string) (st : includesState) (forest : list Include) :
  hinv st forest -> hinv (initIncludes_body cur st) (addChain forest cur).
Proof.
  intros (Hh & Ho & Hr). unfold initIncludes_body, addChain.
  destruct (split cur nestedRelationDelimiter true) as [rootKey next]. cbn [fst snd].
  rewrite <- Hr. destruct (is_roots st !! rootKey) as [p|] eqn:Hp.
  - rewrite Hr in Hp. apply findRelation_Some in Hp as (node & Hi & Hrel).
    cbn [is_heap is_roots is_ordered]. rewrite Hh. split; [done|]. split.
    + by rewrite length_insert.
    + intros name. rewrite Hr. symmetry. apply findRelation_names.
      apply (names_insert _ _ node); [done|].
      by rewrite expandInclude_Relation; unfold deref; rewrite Hi.
  - rewrite Hr in Hp. cbn [is_heap is_roots is_ordered]. rewrite Hh.
    assert (deref (forest ++ [mkInclude rootKey []]) (length forest)
            = mkInclude rootKey []) as ->.
    { unfold deref. rewrite lookup_app_r by lia. by rewrite Nat.sub_diag. }
    assert (<[length forest := expandInclude (mkInclude rootKey []) next]>
              (forest ++ [mkInclude rootKey []])
            = forest ++ [expandInclude (mkInclude rootKey []) next]) as ->.
    { rewrite insert_app_r_alt by lia. by rewrite Nat.sub_diag. }
    split; [done|]. split.
    + cbn [is_ordered]. rewrite Ho, length_app. cbn [length].
      by rewrite Nat.add_1_r, seq_S.
    + intros name. rewrite findRelation_snoc, expandInclude_Relation.
      cbn [Include_Relation is_roots]. destruct (decide (rootKey = name)) as [<-|Hne].
      * rewrite lookup_insert_eq, Hp. by rewrite bool_decide_eq_true_2.
      * rewrite lookup_insert_ne, Hr by done.
        destruct (findRelation forest name); [done|]. by rewrite bool_decide_eq_false_2.
Qed.

Lemma include_entries_hinv (entries : list string) (st : includesState)
    (forest : list Include) :
  hinv st forest ->
  hinv (foldl (fun st entry => initIncludes_body entry st) st entries)
       (foldl addChain forest entries).
Proof.
  revert st forest; induction entries as [|e entries IH]; intros st forest H; [done|].
  simpl. apply IH. by apply include_body_hinv.
Qed.

Lemma include_values_hinv (vals : list Value) (st : includesState)
    (forest : list Include) :
  hinv st forest ->
  hinv (foldl (fun st val => initIncludes_value val st) st vals)
       (foldl addChain forest
          (flat_map (fun val =>
                       if includeEligible val
                       then upToEmpty (strings.Split (Value_Value val) relationDelimiter)
                       else []) vals)).
Proof.
  revert st forest; induction vals as [|val vals IH]; intros st forest H; [done|].
  cbn [foldl flat_map]. rewrite foldl_app. apply IH.
  unfold initIncludes_value, includeEligible.
  destruct ((0 <? len (Value_NestedKeys val))%nat || bool_decide (Value_Value val = ""));
    [done|].
  cbn [negb].
  pose proof (loopEntries_reads_upToEmpty relationDelimiter initIncludes_body
                (Value_Value val) st) as E.
  destruct (split (Value_Value val) relationDelimiter true) as [cur rest].
  cbn [fst snd] in E. rewrite E. by apply include_entries_hinv.
Qed.

Lemma deref_all (forest : list Include) :
  deref forest <$> seq 0 (length forest) = forest.
Proof.
  induction forest as [|node forest IH] using rev_ind; [done|].
  rewrite length_app. cbn [length]. rewrite Nat.add_1_r, seq_S, fmap_app. cbn.
  f_equal.
  - rewrite <- IH at 3. apply list_fmap_ext. intros i x Hx.
    apply lookup_seq in Hx as [-> Hlt]. unfold deref. by rewrite lookup_app_l.
  - unfold deref. rewrite lookup_app_r by lia. by rewrite Nat.sub_diag.
Qed.

(** What [initIncludes] computes: the chains merged one after the other into
    one forest, where of each value only the chains before its first empty
    chain are read. *)
Lemma initIncludes_reads_upToEmpty (values : Values) :
  initIncludes values =
  match values !! includeKeyword with
  | None => None
  | Some vals => Some (forestOf upToEmpty vals)
  end.
Proof.
  unfold initIncludes. destruct (values !! includeKeyword) as [vals|]; [|done].
  destruct (include_values_hinv vals (mkIncludesState [] ∅ []) []) as (Hh & Ho & _).
  { split; [done|]. split; [done|]. intros name. apply lookup_empty. }
  cbv zeta. rewrite Ho, Hh. fold (forestOf upToEmpty vals). by rewrite deref_all.
Qed.

(** In the forest [initIncludes] returns no relation occurs twice among the
    roots, nor among the children of any node. *)
Lemma initIncludes_unique (values : Values) (forest : list Include) :
  initIncludes values = Some forest -> uniqueForest forest.
Proof.
  rewrite initIncludes_reads_upToEmpty.
  destruct (values !! includeKeyword) as [vals|]; [|done]. intros [= <-].
  unfold forestOf.
  generalize (flat_map (fun val =>
    if includeEligible val
    then upToEmpty (strings.Split (Value_Value val) relationDelimiter)
    else []) vals) as chains.
  assert (uniqueForest []) as H0 by (split; constructor).
  revert H0. generalize (@nil Include) as forest.
  intros forest H0 chains; revert forest H0.
  induction chains as [|chain chains IH]; intros forest H0; [done|].
  simpl. apply IH. by apply addChain_unique.
Qed.

(** Merging a chain never moves a node: the relations of the roots before
    are a prefix of the relations of the roots after. *)
Lemma addChain_prefix (forest : list Include) (chain : string) :
  (Include_Relation <$> forest) `prefix_of` (Include_Relation <$> addChain forest chain).
Proof.
  unfold addChain.
  destruct (findRelation forest (split chain nestedRelationDelimiter true).1)
    as [i|] eqn:Hfind.
  - apply findRelation_Some in Hfind as (node & Hi & Hr).
    rewrite (names_insert _ _ node); [done|done|].
    by rewrite expandInclude_Relation; unfold deref; rewrite Hi.
  - rewrite fmap_app. by apply prefix_app_r.
Qed.

(** [C5] [initIncludes] stops reading a value at its first empty relation
    chain.  On the values ["a,,b"] and ["c,b"] of the [include] key the
    chain [b] appears in the first value, before [c] appears at all, and
    merging every chain of every value puts [b] before [c]; the builder
    never reads [b] in the first value, and its forest has [c] before [b].
    The example of the specification evaluates as it says. *)
Theorem initIncludes_stops_at_empty_chain :
  initIncludes {[ "include" := [mkValue "include" None "a,,b";
                                mkValue "include" None "c,b"] ]}
  = Some [mkInclude "a" []; mkInclude "c" []; mkInclude "b" []]
  /\ Include_Relation <$> forestOf (fun chains => chains)
                            [mkValue "include" None "a,,b"; mkValue "include" None "c,b"]
     = ["a"; ""; "b"; "c"]
  /\ initIncludes {[ "include" := [mkValue "include" None "a,,b"] ]}
     = Some [mkInclude "a" []]
  /\ (exists q, goParseQuery "include=a,,b&include=c,b" = Ok q
                /\ Query_Includes q
                   = Some [mkInclude "a" []; mkInclude "c" []; mkInclude "b" []])
  /\ initIncludes {[ "include" := [mkValue "include" None "author,comments.author";
                                   mkValue "include" None "comments.replies";
                                   mkValue "include" None "author.avatar"] ]}
     = Some [mkInclude "author" [mkInclude "avatar" []];
             mkInclude "comments" [mkInclude "author" []; mkInclude "replies" []]].
Proof.
  split; [vm_compute; reflexivity|].
  split; [vm_compute; reflexivity|].
  split; [vm_compute; reflexivity|].
  split; [|vm_compute; reflexivity].
  eexists. split; [reflexivity|]. vm_compute. reflexivity.
Qed.

(** ** The bracket key extractor *)

Lemma top_scan (first : bool) (s topKey : string) :
  match extractKeys_top first s topKey with
  | None => accepts (topState first) s = false /\ endsUnclosed (topState first) s = false
  | Some (_, EmptyString) => accepts (topState first) s = true
  | Some (_, rest) =>
      accepts (topState first) s = accepts GClose rest
      /\ endsUnclosed (topState first) s = endsUnclosed GClose rest
  end.
Proof.
  revert first topKey; induction s as [|c s IH]; intros first topKey.
  { by destruct first. }
  cbn [extractKeys_top accepts endsUnclosed].
  destruct (bool_decide_reflect (c = closeBracket)) as [->|Hc].
  { by destruct first. }
  destruct (bool_decide_reflect (c = openBracket)) as [->|Ho].
  { destruct first; [done|]. cbn. done. }
  cbn [orb andb]. rewrite andb_false_r. cbn [orb].
  specialize (IH false (topKey +:+ String c "")).
  destruct first; exact IH.
Qed.

Lemma str_snoc_nonempty (s : string) (c : ascii) : s +:+ String c "" ≠ "".
Proof. by destruct s. Qed.

Lemma nested_scan (s : string) (opened : bool) (nestedKey : string)
    (nestedKeys : list string) :
  (opened = false -> nestedKey = "") ->
  match extractKeys_nested s opened nestedKey nestedKeys with
  | None =>
      accepts (nestedState opened nestedKey) s = false
      /\ endsUnclosed (nestedState opened nestedKey) s = false
  | Some result =>
      (accepts (nestedState opened nestedKey) s = true
       \/ endsUnclosed (nestedState opened nestedKey) s = true)
      /\ length nestedKeys <= length result
      /\ (accepts (nestedState opened nestedKey) s = true ->
          opened = true \/ s ≠ "" ->
          length nestedKeys < length result)
  end.
Proof.
  revert opened nestedKey nestedKeys; induction s as [|c s IH];
    intros opened nestedKey nestedKeys Hk.
  { cbn. destruct opened; cbn.
    - destruct nestedKey; cbn; (split; [by right|]); (split; [lia|done]).
    - split; [by left|]. split; [lia|]. intros _ [?|?]; done. }
  cbn [extractKeys_nested accepts endsUnclosed].
  destruct (bool_decide_reflect (c = openBracket)) as [->|Ho].
  - destruct opened; cbn [andb orb negb nestedState].
    + by destruct nestedKey.
    + rewrite (Hk eq_refl).
      specialize (IH true "" nestedKeys ltac:(done)). cbn [nestedState] in IH.
      destruct (extractKeys_nested s true "" nestedKeys) as [result|]; [|done].
      destruct IH as (H1 & H2 & H3). split; [done|]. split; [done|].
      intros Ha _. apply H3; [done|by left].
  - destruct (bool_decide_reflect (c = closeBracket)) as [->|Hc];
      (destruct opened; cbn [andb orb negb nestedState]; [|done]).
    + destruct nestedKey as [|k nestedKey]; [done|].
      specialize (IH false "" (nestedKeys ++ [String k nestedKey]) ltac:(done)).
      cbn [nestedState] in IH.
      destruct (extractKeys_nested s false "" _) as [result|]; [|done].
      destruct IH as (H1 & H2 & H3). rewrite length_app in H2. cbn [length] in H2.
      split; [done|]. split; [lia|]. intros _ _. lia.
    + specialize (IH true (nestedKey +:+ String c "") nestedKeys ltac:(done)).
      cbn [nestedState] in IH.
      assert (match nestedKey +:+ String c "" with
              | EmptyString => GOpen
              | _ => GNested
              end = GNested) as E
        by (pose proof (str_snoc_nonempty nestedKey c);
            by destruct (nestedKey +:+ String c "")).
      rewrite E in IH.
      destruct (extractKeys_nested s true (nestedKey +:+ String c "") nestedKeys)
        as [result|].
      * destruct IH as (H1 & H2 & H3).
        destruct nestedKey; (split; [done|]); (split; [done|]);
          intros Ha _; (apply H3; [done|by left]).
      * by destruct nestedKey.
Qed.

Lemma extractKeys_nonempty (c : ascii) (s : string) :
  extractKeys (String c s) =
  match extractKeys_top true (String c s) "" with
  | None => (String c s, None)
  | Some (topKey, rest) =>
      if bool_decide (rest = "") || bool_decide (String.length rest < nestedKeyDefMin)
      then (String c s, None)
      else match extractKeys_nested rest false "" [] with
           | None => (String c s, None)
           | Some nestedKeys => (topKey, Some nestedKeys)
           end
  end.
Proof. reflexivity. Qed.

(** On every token that does not end inside an unclosed bracket,
    [extractKeys] does what the specification asks: a token outside the
    grammar comes back unchanged with [nil], and any other result has a
    non-empty list of nested keys. *)
Lemma extractKeys_failSoft_unless_unclosed (token : string) :
  endsUnclosed GStart token = false -> failSoft token.
Proof.
  intros Hu. unfold failSoft, wellFormed.
  destruct token as [|c0 token0]; [by split; [|left]|].
  rewrite extractKeys_nonempty.
  remember (String c0 token0) as token eqn:Htoken. clear Htoken.
  pose proof (top_scan true token "") as Htop. cbn [topState] in Htop.
  destruct (extractKeys_top true token "") as [[topKey rest]|]; [|by split; [|left]].
  destruct rest as [|r0 rest0].
  { split; [|by left]. by rewrite Htop. }
  destruct Htop as [Ha Hu']. rewrite Hu' in Hu. rewrite Ha.
  remember (String r0 rest0) as rest eqn:Hrest.
  destruct (bool_decide (rest = "") || bool_decide (String.length rest < nestedKeyDefMin));
    [by split; [|left]|].
  pose proof (nested_scan rest false "" [] ltac:(done)) as Hn. cbn [nestedState] in Hn.
  destruct (extractKeys_nested rest false "" []) as [nestedKeys|]; [|by split; [|left]].
  destruct Hn as ([Hacc|Hunc] & _ & Hlen); [|by rewrite Hu in Hunc].
  split; [by rewrite Hacc|]. right. exists topKey, nestedKeys. split; [done|].
  assert (rest ≠ "") as Hne by (by subst rest).
  specialize (Hlen Hacc ltac:(by right)). destruct nestedKeys; [simpl in Hlen; lia|done].
Qed.

(** [C1] [extractKeys] does not fail soft on a token whose last bracket is
    never closed.  ["field[lvl1][lvl2"] is outside the grammar and comes
    back with the top key cut to ["field"] and the partial list [["lvl1"]];
    ["k[ab"] comes back as ["k"] with an empty, non-nil list; the trailing
    bracket of ["k[a]["] is dropped without a word.  The two examples of the
    specification evaluate as it says. *)
Theorem extractKeys_unclosed_bracket :
  wellFormed "field[lvl1][lvl2" = false
  /\ extractKeys "field[lvl1][lvl2" = ("field", Some ["lvl1"])
  /\ wellFormed "k[ab" = false
  /\ extractKeys "k[ab" = ("k", Some [])
  /\ wellFormed "k[a][" = false
  /\ extractKeys "k[a][" = ("k", Some ["a"])
  /\ ~ failSoft "field[lvl1][lvl2"
  /\ ~ failSoft "k[ab"
  /\ ~ failSoft "k[a]["
  /\ extractKeys "field[lvl1][lvl2]" = ("field", Some ["lvl1"; "lvl2"])
  /\ extractKeys "field[lvl1][lvl2].[lvl3]" = ("field[lvl1][lvl2].[lvl3]", None).
Proof.
  repeat split; try reflexivity.
  - intros [H _]. specialize (H eq_refl). vm_compute in H. discriminate H.
  - intros [H _]. specialize (H eq_refl). vm_compute in H. discriminate H.
  - intros [H _]. specialize (H eq_refl). vm_compute in H. discriminate H.
Qed.

(** * Further properties of the package *)

(** ** [split] *)

Lemma sliceTo_sliceFrom (s : string) (i : nat) :
  strings.sliceTo s i +:+ strings.sliceFrom s i = s.
Proof.
  revert s; induction i as [|i IH]; intros [|c s]; try reflexivity.
  cbn [strings.sliceTo strings.sliceFrom]. by rewrite str_app_cons, IH.
Qed.

Lemma IndexByte_Some (s : string) (sep : ascii) (i : nat) :
  strings.IndexByte s sep = Some i ->
  strings.IndexByte (strings.sliceTo s i) sep = None
  /\ strings.sliceFrom s i = String sep (strings.sliceFrom s (i + 1)).
Proof.
  revert i; induction s as [|c s IH]; intros i; simpl; [done|].
  destruct (decide (c = sep)) as [->|Hne].
  - intros [= <-]. done.
  - destruct (strings.IndexByte s sep) as [j|]; simpl; [|done].
    intros [= <-]. destruct (IH j eq_refl) as [H1 H2]. simpl.
    rewrite decide_False by done. by rewrite H1.
Qed.

(** [X1] [split] cuts [s] at the first [sep] and loses nothing.  Without
    [sep] in [s] the result is [s] and the empty string.  Otherwise the
    first part holds no [sep]; with [cutc] the two parts around one [sep]
    give [s] back, and without [cutc] the two parts alone do, the second
    one starting at [sep]. *)
Theorem split_reassembles (s : string) (sep : ascii) :
  (strings.IndexByte s sep = None ->
     forall cutc, split s sep cutc = (s, ""))
  /\ strings.IndexByte (split s sep true).1 sep = None
  /\ (split s sep false).1 = (split s sep true).1
  /\ (split s sep false).1 +:+ (split s sep false).2 = s
  /\ (strings.IndexByte s sep ≠ None ->
        s = (split s sep true).1 +:+ String sep (split s sep true).2
        /\ (split s sep false).2 = String sep (split s sep true).2).
Proof.
  unfold split. destruct (strings.IndexByte s sep) as [i|] eqn:Hi; cbn [fst snd].
  - destruct (IndexByte_Some s sep i Hi) as [H1 H2].
    split; [done|]. split; [done|]. split; [done|].
    split; [apply sliceTo_sliceFrom|]. intros _.
    split; [|done]. rewrite <- H2. symmetry. apply sliceTo_sliceFrom.
  - split; [by intros _ []|]. split; [done|]. split; [done|].
    split; [apply str_app_nil_r|]. done.
Qed.

Lemma split_reassembles_witness :
  split "comments.author.avatar" "." true = ("comments", "author.avatar")
  /\ "comments.author.avatar"
     = (split "comments.author.avatar" "." true).1
       +:+ String "." (split "comments.author.avatar" "." true).2.
Proof.
  destruct (split_reassembles "comments.author.avatar" ".") as (_ & _ & _ & _ & H).
  split; [reflexivity|]. apply H. vm_compute. discriminate.
Defined.

(** ** [extractKeys] *)

Lemma avoids_cons (chars : string) (c : ascii) (s : string) :
  avoids chars (String c s) <-> strings.containsByte chars c = false /\ avoids chars s.
Proof.
  unfold avoids. simpl. destruct (strings.containsByte chars c).
  - split; [done|]. by intros [? _].
  - destruct (strings.IndexAny s chars); simpl; split; try done. by intros [_ ?].
Qed.

Lemma avoids_app (chars a b : string) :
  avoids chars (a +:+ b) <-> avoids chars a /\ avoids chars b.
Proof.
  induction a as [|c a IH].
  - rewrite str_app_nil_l. split; [by split|by intros [_ ?]].
  - rewrite str_app_cons, !avoids_cons, IH. tauto.
Qed.

Lemma bracketFree_cons (c : ascii) (s : string) :
  bracketFree (String c s) <-> c ≠ openBracket /\ c ≠ closeBracket /\ bracketFree s.
Proof.
  unfold bracketFree. rewrite avoids_cons. cbn [strings.containsByte].
  destruct (decide (c = "["%char)) as [->|H1].
  { split; [by intros [? _]|]. by intros [? _]. }
  destruct (decide (c = "]"%char)) as [->|H2].
  { split; [by intros [? _]|]. by intros (_ & ? & _). }
  split; [by intros [_ ?]|]. by intros (_ & _ & ?).
Qed.

Lemma top_render (first : bool) (t rest acc : string) :
  bracketFree t ->
  rest = "" \/ (exists r, rest = String openBracket r) ->
  (first = true -> rest ≠ "" -> t ≠ "") ->
  extractKeys_top first (t +:+ rest) acc = Some (acc +:+ t, rest).
Proof.
  revert first acc; induction t as [|c t IH]; intros first acc Hfree Hrest Hfirst.
  - rewrite str_app_nil_l, str_app_nil_r. destruct Hrest as [->|[r ->]]; [done|].
    destruct first; [|done]. by destruct (Hfirst eq_refl).
  - apply bracketFree_cons in Hfree as (Ho & Hc & Hfree).
    rewrite str_app_cons. cbn [extractKeys_top].
    rewrite (bool_decide_eq_false_2 (c = closeBracket)) by done.
    rewrite (bool_decide_eq_false_2 (c = openBracket)) by done.
    rewrite andb_false_r. cbn [orb].
    rewrite IH by done. by rewrite str_app_assoc.
Qed.

Lemma nested_key_render (k r nestedKey : string) (acc : list string) :
  bracketFree k -> nestedKey +:+ k ≠ "" ->
  extractKeys_nested (k +:+ String closeBracket r) true nestedKey acc
  = extractKeys_nested r false "" (acc ++ [nestedKey +:+ k]).
Proof.
  revert nestedKey; induction k as [|c k IH]; intros nestedKey Hfree Hne.
  - rewrite str_app_nil_l. rewrite str_app_nil_r in *. cbn [extractKeys_nested].
    cbn. by destruct nestedKey.
  - apply bracketFree_cons in Hfree as (Ho & Hc & Hfree).
    rewrite str_app_cons. cbn [extractKeys_nested].
    rewrite (bool_decide_eq_false_2 (c = closeBracket)) by done.
    rewrite (bool_decide_eq_false_2 (c = openBracket)) by done.
    cbn [andb orb negb]. rewrite IH; [|done|].
    + by rewrite str_app_assoc.
    + rewrite str_app_assoc. by destruct nestedKey.
Qed.

Lemma nested_render (nestedKeys acc : list string) :
  Forall properKey nestedKeys ->
  extractKeys_nested (renderNested nestedKeys) false "" acc = Some (acc ++ nestedKeys).
Proof.
  intros H; revert acc; induction H as [|k ks [Hne Hfree] _ IH]; intros acc.
  - by rewrite app_nil_r.
  - cbn [renderNested extractKeys_nested]. cbn.
    rewrite nested_key_render by done. rewrite str_app_nil_l, IH.
    by rewrite <- app_assoc.
Qed.

Lemma str_length_app (a b : string) :
  String.length (a +:+ b) = String.length a + String.length b.
Proof. induction a as [|c a IH]; [done|]. rewrite str_app_cons. simpl. by rewrite IH. Qed.

(** [X2] A key written [top[n1][n2]...], with a top key and nested keys
    that are not empty and hold no bracket, and at least one nested key,
    is read back by [extractKeys] as exactly that top key and those nested
    keys. *)
Theorem extractKeys_renderKey (topKey : string) (nestedKeys : list string) :
  properKey topKey -> nestedKeys ≠ [] -> Forall properKey nestedKeys ->
  extractKeys (renderKey topKey nestedKeys) = (topKey, Some nestedKeys).
Proof.
  intros [Htop Hfree] Hne Hall. unfold renderKey.
  destruct nestedKeys as [|k ks]; [done|].
  destruct topKey as [|c0 top0]; [done|].
  rewrite str_app_cons, extractKeys_nonempty, <- str_app_cons.
  rewrite top_render; [|done|right; by eexists|done].
  rewrite str_app_nil_l.
  assert (bool_decide (renderNested (k :: ks) = "")
          || bool_decide (String.length (renderNested (k :: ks)) < nestedKeyDefMin) = false)
    as ->.
  { apply orb_false_intro; apply bool_decide_eq_false_2; [done|].
    apply Forall_cons in Hall as [[Hk _] _]. cbn [renderNested String.length].
    rewrite str_length_app. destruct k; [done|]. unfold nestedKeyDefMin. simpl. lia. }
  by rewrite nested_render.
Qed.

Lemma extractKeys_renderKey_witness :
  extractKeys (renderKey "page" ["header"; "font"; "name"])
  = ("page", Some ["header"; "font"; "name"]).
Proof.
  apply extractKeys_renderKey.
  - split; [done|reflexivity].
  - done.
  - repeat constructor; done.
Defined.

Lemma top_shape (first : bool) (s acc top rest : string) :
  extractKeys_top first s acc = Some (top, rest) ->
  exists t, top = acc +:+ t /\ s = t +:+ rest /\ bracketFree t
            /\ (rest = "" \/ (exists r, rest = String openBracket r)
                             /\ (first = true -> t ≠ "")).
Proof.
  revert first acc; induction s as [|c s IH]; intros first acc.
  { intros [= <- <-]. exists "". rewrite str_app_nil_r. repeat split; by left. }
  cbn [extractKeys_top].
  destruct (bool_decide_reflect (c = closeBracket)) as [->|Hc]; [done|].
  destruct (bool_decide_reflect (c = openBracket)) as [->|Ho].
  { destruct first; [done|]. cbn. intros [= <- <-]. exists "".
    rewrite str_app_nil_r. repeat split. right. split; [by eexists|done]. }
  rewrite andb_false_r. cbn [orb]. intros H.
  destruct (IH _ _ H) as (t & -> & -> & Hfree & Hrest).
  exists (String c t). rewrite str_app_assoc. split; [done|]. split; [done|].
  split; [by apply bracketFree_cons|].
  destruct Hrest as [->|[Hr _]]; [by left|]. right. split; [done|]. done.
Qed.

Lemma nested_shape (s : string) (opened : bool) (nestedKey : string)
    (acc result : list string) :
  extractKeys_nested s opened nestedKey acc = Some result ->
  bracketFree nestedKey -> Forall properKey acc -> Forall properKey result.
Proof.
  revert opened nestedKey acc; induction s as [|c s IH]; intros opened nestedKey acc.
  { by intros [= <-]. }
  cbn [extractKeys_nested].
  destruct (bool_decide_reflect (c = openBracket)) as [->|Ho].
  { destruct opened; [done|]. cbn. intros H ? ?. by eapply IH. }
  destruct opened; cbn [andb orb negb]; [|done].
  destruct (bool_decide_reflect (c = closeBracket)) as [->|Hc].
  - destruct nestedKey as [|k0 k]; [done|]. intros H Hfree Hacc.
    eapply IH; [exact H|done|]. apply Forall_app. split; [done|].
    constructor; [|constructor]. by split.
  - intros H Hfree Hacc. eapply IH; [exact H| |done].
    apply avoids_app. split; [done|]. apply bracketFree_cons. by repeat split.
Qed.

(** [X3] What [extractKeys] can return.  With [nil] it returns the token
    itself.  With a list it returns a top key that is not empty, holds no
    bracket and is followed by ['['] in the token, and nested keys that are
    not empty and hold no bracket.  A token without brackets is returned
    as it is, with [nil]. *)
Theorem extractKeys_result_shape (token : string) :
  (forall topKey, extractKeys token = (topKey, None) -> topKey = token)
  /\ (forall topKey nestedKeys,
        extractKeys token = (topKey, Some nestedKeys) ->
        properKey topKey
        /\ (exists rest, token = topKey +:+ String openBracket rest)
        /\ Forall properKey nestedKeys)
  /\ (bracketFree token -> extractKeys token = (token, None)).
Proof.
  destruct token as [|c0 token0].
  { split; [by intros ? [= <-]|]. split; [by intros ? ? [=]|done]. }
  rewrite extractKeys_nonempty.
  remember (String c0 token0) as token eqn:Htoken.
  split; [|split].
  - intros topKey.
    destruct (extractKeys_top true token "") as [[top rest]|]; [|by intros [= <-]].
    destruct (_ || _); [by intros [= <-]|].
    destruct (extractKeys_nested rest false "" []); [done|by intros [= <-]].
  - intros topKey nestedKeys.
    destruct (extractKeys_top true token "") as [[top rest]|] eqn:Htop; [|done].
    destruct (bool_decide_reflect (rest = "")) as [|Hrest]; [done|]. cbn [orb].
    destruct (bool_decide _); [done|].
    destruct (extractKeys_nested rest false "" []) as [result|] eqn:Hn; [|done].
    intros [= <- <-].
    apply top_shape in Htop as (t & -> & Ht & Hfree & [?|[[r ->] Hne]]); [done|].
    rewrite str_app_nil_l. split; [by split; [apply Hne|]|].
    split; [by exists r|]. by eapply nested_shape.
  - intros Hfree.
    pose proof (top_render true token "" "" Hfree (or_introl eq_refl)) as H.
    rewrite str_app_nil_r, str_app_nil_l in H. by rewrite H.
Qed.

Lemma extractKeys_result_shape_witness :
  extractKeys "articles" = ("articles", None)
  /\ properKey "field    "
  /\ Forall properKey ["lvl1"; "lvl2"].
Proof.
  destruct (extractKeys_result_shape "articles") as (_ & _ & H1).
  destruct (extractKeys_result_shape "field    [lvl1][lvl2]") as (_ & H2 & _).
  split; [apply H1; reflexivity|].
  destruct (H2 "field    " ["lvl1"; "lvl2"] eq_refl) as (Ht & _ & Hn). by split.
Defined.

(** ** [ParseValues] *)

Lemma splitAny_nonempty (s chars : string) : splitAny s chars ≠ [].
Proof.
  induction s as [|c s IH]; simpl; [done|].
  destruct (strings.containsByte chars c); [done|]. by destruct (splitAny s chars).
Qed.

Lemma splitAny_app_sep (a b chars : string) (sep : ascii) :
  strings.containsByte chars sep = true ->
  splitAny (a +:+ String sep b) chars = splitAny a chars ++ splitAny b chars.
Proof.
  intros Hsep. induction a as [|c a IH].
  - rewrite str_app_nil_l. simpl. by rewrite Hsep.
  - rewrite str_app_cons. cbn [splitAny]. rewrite IH.
    destruct (strings.containsByte chars c); [done|].
    pose proof (splitAny_nonempty a chars). by destruct (splitAny a chars).
Qed.

Lemma queryFragments_app_sep (a b : string) (sep : ascii) :
  sep = "&"%char \/ sep = ";"%char ->
  queryFragments (a +:+ String sep b) = queryFragments a ++ queryFragments b.
Proof.
  intros Hsep. unfold queryFragments.
  rewrite (splitAny_app_sep a b "&;" sep), filter_app; [done|].
  by destruct Hsep as [-> | ->].
Qed.

Lemma ParseValues_loop_app_sep (a b : string) (sep : ascii) (values : Values) :
  sep = "&"%char \/ sep = ";"%char ->
  ParseValues_loop (a +:+ String sep b) values
  = ParseValues_loop b (ParseValues_loop a values).
Proof.
  intros Hsep. rewrite !ParseValues_loop_fragments.
  by rewrite queryFragments_app_sep, fmap_app, foldl_app.
Qed.

(** [X4] Parsing a query cut by ['&'] or [';'] is parsing its left part and
    then going on with its right part from the multimap reached: both
    bytes separate alike, and a separator with nothing before or after it
    adds nothing.  So [ParseValues] on a query that decodes to [a], a
    separator and [b] gives what the loop gives on [b] after [a]. *)
Theorem ParseValues_concatenation
    (QueryUnescape : string -> result string) (a b : string) (sep : ascii) :
  sep = "&"%char \/ sep = ";"%char ->
  (forall values,
     ParseValues_loop (a +:+ String sep b) values
     = ParseValues_loop b (ParseValues_loop a values))
  /\ (forall values, ParseValues_loop (String sep b) values = ParseValues_loop b values)
  /\ (forall values, ParseValues_loop (a +:+ String sep "") values
                     = ParseValues_loop a values)
  /\ (forall query,
        QueryUnescape query = Ok (a +:+ String sep b) ->
        ParseValues QueryUnescape query
        = Ok (ParseValues_loop b (ParseValues_loop (stripQuestion a) ∅))).
Proof.
  intros Hsep. split; [|split; [|split]].
  - intros values. by apply ParseValues_loop_app_sep.
  - intros values. rewrite <- (str_app_nil_l (String sep b)).
    rewrite ParseValues_loop_app_sep by done. by simp ParseValues_loop.
  - intros values. rewrite ParseValues_loop_app_sep by done. by simp ParseValues_loop.
  - intros query Hq. unfold ParseValues. rewrite Hq. f_equal.
    rewrite <- (ParseValues_loop_app_sep _ b sep) by done. f_equal.
    destruct a as [|c a]; [by destruct Hsep as [-> | ->]|].
    rewrite str_app_cons. unfold stripQuestion. by case_bool_decide.
Qed.

Lemma ParseValues_concatenation_witness :
  goParseValues "?sort=-title;page[size]=10"
  = Ok (ParseValues_loop "page[size]=10" (ParseValues_loop "sort=-title" ∅)).
Proof.
  destruct (ParseValues_concatenation url.QueryUnescape "?sort=-title" "page[size]=10" ";")
    as (_ & _ & _ & H); [by right|].
  apply H. reflexivity.
Defined.

Lemma avoids_mono (sub sup s : string) :
  (forall c, strings.containsByte sub c = true -> strings.containsByte sup c = true) ->
  avoids sup s -> avoids sub s.
Proof.
  intros Hsub. induction s as [|c s IH]; [done|]. rewrite !avoids_cons.
  intros [Hc Hs]. split; [|by apply IH].
  destruct (strings.containsByte sub c) eqn:E; [|done]. by rewrite (Hsub c E) in Hc.
Qed.

Lemma plainKey_properKey (k : string) : plainKey k -> properKey k.
Proof.
  intros [Hne Hav]. split; [done|]. revert Hav. apply avoids_mono.
  intros c. cbn. repeat (destruct (decide _)); done.
Qed.

Lemma plainKey_no_equals (k : string) : plainKey k -> avoids "=" k.
Proof.
  intros [_ Hav]. revert Hav. apply avoids_mono.
  intros c. cbn. repeat (destruct (decide _)); done.
Qed.

Lemma plainKey_no_separator (k : string) : plainKey k -> avoids "&;" k.
Proof.
  intros [_ Hav]. revert Hav. apply avoids_mono.
  intros c. cbn. repeat (destruct (decide _)); done.
Qed.

Lemma avoids_renderNested (chars : string) (nestedKeys : list string) :
  strings.containsByte chars openBracket = false ->
  strings.containsByte chars closeBracket = false ->
  Forall (avoids chars) nestedKeys -> avoids chars (renderNested nestedKeys).
Proof.
  intros Ho Hc. induction 1 as [|k ks Hk _ IH]; [done|].
  cbn [renderNested]. apply avoids_cons. split; [done|].
  apply avoids_app. split; [done|]. by apply avoids_cons.
Qed.

Lemma extractKeys_render_any (topKey : string) (nestedKeys : list string) :
  properKey topKey -> Forall properKey nestedKeys ->
  extractKeys (renderKey topKey nestedKeys) = (topKey, nonEmpty nestedKeys).
Proof.
  intros [Htop Hfree] Hall. unfold renderKey.
  destruct topKey as [|c0 top0]; [done|].
  rewrite str_app_cons, extractKeys_nonempty, <- str_app_cons.
  destruct nestedKeys as [|k ks].
  - cbn [renderNested nonEmpty].
    rewrite top_render; [|done|by left|done]. by rewrite str_app_nil_r.
  - rewrite top_render; [|done|right; by eexists|done].
    rewrite str_app_nil_l.
    assert (bool_decide (renderNested (k :: ks) = "")
            || bool_decide (String.length (renderNested (k :: ks)) < nestedKeyDefMin)
            = false) as ->.
    { apply orb_false_intro; apply bool_decide_eq_false_2; [done|].
      apply Forall_cons in Hall as [[Hk _] _]. cbn [renderNested String.length].
      rewrite str_length_app. destruct k; [done|]. unfold nestedKeyDefMin. simpl. lia. }
    by rewrite nested_render.
Qed.

Lemma Index_byte (s : string) (sep : ascii) :
  strings.Index s (String sep "") = strings.IndexByte s sep.
Proof.
  induction s as [|c s IH]; [done|]. cbn [strings.Index strings.IndexByte String.prefix].
  destruct (Ascii.ascii_dec sep c) as [->|Hne].
  - rewrite decide_True by done. by destruct s.
  - rewrite decide_False by (intros ->; done). by rewrite IH.
Qed.

Lemma avoids_byte (s : string) (sep : ascii) :
  avoids (String sep "") s <-> strings.IndexByte s sep = None.
Proof.
  induction s as [|c s IH]; [done|]. rewrite avoids_cons, IndexByte_None_cons, IH.
  cbn [strings.containsByte].
  destruct (decide (c = sep)) as [->|Hne]; split; intros [H1 H2]; try done; by split.
Qed.

Lemma IndexByte_app_sep (k v : string) (sep : ascii) :
  strings.IndexByte k sep = None ->
  strings.IndexByte (k +:+ String sep v) sep = Some (String.length k).
Proof.
  induction k as [|c k IH]; intros H.
  - rewrite str_app_nil_l. simpl. by rewrite decide_True.
  - apply IndexByte_None_cons in H as [Hc Hk]. rewrite str_app_cons. simpl.
    rewrite decide_False by done. by rewrite IH.
Qed.

Lemma sliceTo_app (k x : string) : strings.sliceTo (k +:+ x) (String.length k) = k.
Proof.
  induction k as [|c k IH]; [by destruct x|]. rewrite str_app_cons. simpl. by rewrite IH.
Qed.

Lemma sliceFrom_app (k x : string) (n : nat) :
  strings.sliceFrom (k +:+ x) (String.length k + n) = strings.sliceFrom x n.
Proof. induction k as [|c k IH]; [done|]. rewrite str_app_cons. simpl. by rewrite IH. Qed.

Lemma canonicalKeys_no_equals (kv : Value) :
  canonicalKeys kv ->
  strings.IndexByte (renderKey (Value_TopLevelKey kv) (elems (Value_NestedKeys kv))) "="
  = None.
Proof.
  intros (Htop & _ & Hnested). apply avoids_byte. unfold renderKey. apply avoids_app.
  split; [by apply plainKey_no_equals|].
  apply avoids_renderNested; [done|done|].
  eapply Forall_impl; [exact Hnested|]. apply plainKey_no_equals.
Qed.

Lemma canonicalKeys_extract (kv : Value) :
  canonicalKeys kv ->
  extractKeys (renderKey (Value_TopLevelKey kv) (elems (Value_NestedKeys kv)))
  = (Value_TopLevelKey kv, Value_NestedKeys kv).
Proof.
  intros (Htop & Hnil & Hnested).
  rewrite extractKeys_render_any.
  - f_equal. destruct (Value_NestedKeys kv) as [[|k ks]|]; done.
  - by apply plainKey_properKey.
  - eapply Forall_impl; [exact Hnested|]. apply plainKey_properKey.
Qed.

Lemma fragmentValue_at_equals (key value : string) :
  strings.IndexByte key "=" = None ->
  fragmentValue (key +:+ String "="%char value)
  = mkValue (extractKeys key).1 (extractKeys key).2 value
  /\ fragmentValue key = mkValue (extractKeys key).1 (extractKeys key).2 "".
Proof.
  intros Heq. unfold fragmentValue. rewrite !Index_byte. split.
  - rewrite IndexByte_app_sep by done.
    rewrite sliceTo_app, sliceFrom_app. cbn [strings.sliceFrom].
    by destruct (extractKeys key).
  - rewrite Heq. by destruct (extractKeys key).
Qed.

(** [X5] A fragment written [top[n1][n2]...=value] from plain keys is read
    back by the tokenizer as the record it was written from, whatever the
    value holds, equals signs and brackets included; written without
    [=value] it is read back with the empty value. *)
Theorem fragmentValue_renderFragment (kv : Value) :
  canonicalKeys kv ->
  fragmentValue (renderFragment kv) = kv
  /\ fragmentValue (renderKey (Value_TopLevelKey kv) (elems (Value_NestedKeys kv)))
     = mkValue (Value_TopLevelKey kv) (Value_NestedKeys kv) "".
Proof.
  intros Hkv.
  destruct (fragmentValue_at_equals _ (Value_Value kv) (canonicalKeys_no_equals kv Hkv))
    as [H1 H2].
  unfold renderFragment. rewrite H1, H2, (canonicalKeys_extract kv Hkv).
  by destruct kv.
Qed.

Lemma fragmentValue_renderFragment_witness :
  fragmentValue "filter[createdAt]=lt:2015-01-01&x=[1]"
  = mkValue "filter" (Some ["createdAt"]) "lt:2015-01-01&x=[1]".
Proof.
  apply (fragmentValue_renderFragment
           (mkValue "filter" (Some ["createdAt"]) "lt:2015-01-01&x=[1]")).
  split; [by split|]. split; [done|]. repeat constructor; done.
Defined.


Lemma splitAny_avoids (s chars : string) : avoids chars s -> splitAny s chars = [s].
Proof.
  induction s as [|c s IH]; [done|]. intros [Hc Hs]%avoids_cons.
  cbn [splitAny]. rewrite Hc, IH by done. done.
Qed.

Lemma canonicalValue_fragment (kv : Value) :
  canonicalValue kv -> queryFragments (renderFragment kv) = [renderFragment kv].
Proof.
  intros [(Htop & Hnil & Hnested) Hval]. unfold queryFragments.
  rewrite splitAny_avoids.
  - rewrite filter_cons, decide_True; [done|].
    unfold renderFragment, renderKey. destruct Htop as [Hne _].
    by destruct (Value_TopLevelKey kv).
  - unfold renderFragment, renderKey. rewrite str_app_assoc.
    apply avoids_app. split; [by apply plainKey_no_separator|].
    apply avoids_app. split; [|by apply avoids_cons].
    apply avoids_renderNested; [done|done|].
    eapply Forall_impl; [exact Hnested|]. apply plainKey_no_separator.
Qed.

Lemma queryFragments_renderQuery (kvs : list Value) :
  Forall canonicalValue kvs ->
  fragmentValue <$> queryFragments (renderQuery kvs) = kvs.
Proof.
  induction 1 as [|kv kvs Hkv _ IH]; [done|]. cbn [renderQuery].
  rewrite queryFragments_app_sep by (by left).
  rewrite canonicalValue_fragment by done. cbn [app fmap list_fmap].
  fold (fragmentValue <$> queryFragments (renderQuery kvs)). rewrite IH. f_equal.
  destruct Hkv as [Hkeys _].
  destruct (fragmentValue_at_equals _ (Value_Value kv) (canonicalKeys_no_equals kv Hkeys))
    as [H1 _].
  unfold renderFragment. rewrite H1, (canonicalKeys_extract kv Hkeys). by destruct kv.
Qed.

(** [X6] Writing records as a query and parsing it gives the records back:
    for records with plain keys and values free of ['&'] and [';'], the
    multimap of the query [f1&f2&...] holds under each key exactly the
    records with that top key, in the order written, and no other key.  The
    same holds through [ParseValues] when the query decodes to that text
    behind a ['?']. *)
Theorem ParseValues_renderQuery (kvs : list Value) :
  Forall canonicalValue kvs ->
  (forall K,
     ParseValues_loop (renderQuery kvs) ∅ !! K
     = nonEmpty (filter (fun kv => Value_TopLevelKey kv = K) kvs))
  /\ (forall (QueryUnescape : string -> result string) query,
        QueryUnescape query = Ok (String "?"%char (renderQuery kvs)) ->
        exists values,
          ParseValues QueryUnescape query = Ok values
          /\ forall K, values !! K
                       = nonEmpty (filter (fun kv => Value_TopLevelKey kv = K) kvs)).
Proof.
  intros Hkvs.
  assert (forall K,
     ParseValues_loop (renderQuery kvs) ∅ !! K
     = nonEmpty (filter (fun kv => Value_TopLevelKey kv = K) kvs)) as H.
  { intros K. rewrite ParseValues_loop_lookup, queryFragments_renderQuery by done.
    by destruct (filter _ kvs). }
  split; [exact H|]. intros QueryUnescape query Hq.
  unfold ParseValues. rewrite Hq. eexists. split; [reflexivity|]. exact H.
Qed.

Lemma ParseValues_renderQuery_witness :
  exists values,
    goParseValues "?page[size]=10&sort=-title&page[number]=2&" = Ok values
    /\ values !! "page" = Some [mkValue "page" (Some ["size"]) "10";
                                mkValue "page" (Some ["number"]) "2"]
    /\ values !! "filter" = None.
Proof.
  destruct (ParseValues_renderQuery
              [mkValue "page" (Some ["size"]) "10"; mkValue "sort" None "-title";
               mkValue "page" (Some ["number"]) "2"]) as [_ H].
  { repeat constructor; done. }
  destruct (H url.QueryUnescape "?page[size]=10&sort=-title&page[number]=2&" eq_refl)
    as (values & Hv & Hk).
  exists values. split; [exact Hv|]. by rewrite !Hk.
Defined.

(** ** [Values.Get] *)

Lemma len_elems {A} (s : slice A) : len s = length (elems s).
Proof. by destruct s. Qed.

Lemma Get_match_drop (itemKeys : list string) (i : nat) (nestedKeys : list string) :
  length itemKeys = i + length nestedKeys ->
  Get_match itemKeys i nestedKeys = bool_decide (drop i itemKeys = nestedKeys).
Proof.
  revert i; induction nestedKeys as [|key nestedKeys IH]; intros i Hlen.
  - simpl in *. rewrite drop_ge by lia. by rewrite bool_decide_eq_true_2.
  - cbn [Get_match length] in *.
    destruct (itemKeys !! i) as [k|] eqn:Hk.
    2:{ apply lookup_ge_None in Hk. lia. }
    rewrite (drop_S _ _ _ Hk).
    destruct (bool_decide_reflect (k ≠ key)) as [Hne|Heq].
    + symmetry. apply bool_decide_eq_false_2. by intros [= ? _].
    + assert (k = key) as -> by (by destruct (decide (k = key))).
      rewrite IH by lia. apply bool_decide_ext. split; [by intros ->|by intros [= ->]].
Qed.

Lemma Get_loop_first (items : list Value) (nestedKeys : slice string) :
  Get_loop items nestedKeys
  = from_option Value_Value "" (firstWithKeys nestedKeys items).
Proof.
  unfold firstWithKeys. induction items as [|item items IH]; [done|].
  cbn [Get_loop]. rewrite filter_cons, !len_elems.
  destruct (Nat.eqb_spec (length (elems (Value_NestedKeys item)))
              (length (elems nestedKeys))) as [Hlen|Hlen]; cbn [negb].
  2:{ rewrite decide_False by (intros E; by rewrite E in Hlen). apply IH. }
  destruct (Nat.eqb_spec (length (elems (Value_NestedKeys item))) 0) as [H0|H0];
    cbn [andb].
  - rewrite H0 in Hlen. symmetry in Hlen.
    apply length_zero_iff_nil in H0, Hlen. rewrite H0, Hlen.
    by rewrite decide_True.
  - rewrite Get_match_drop by (by rewrite Hlen). rewrite drop_0.
    case_bool_decide as E; [by rewrite decide_True|by rewrite decide_False].
Qed.

Lemma Get_first (v : Values) (topKey : string) (nestedKeys : slice string) :
  Get v topKey nestedKeys
  = from_option Value_Value "" (firstWithKeys nestedKeys (default [] (v !! topKey))).
Proof.
  unfold Get. rewrite Get_loop_first.
  by destruct (default [] (v !! topKey)).
Qed.

(** [X7] [Get] returns the value of the first record under the top key
    whose nested keys are, one by one, the nested keys asked for, and the
    empty string when there is none.  A missing top key, and nested keys of
    another length, give the empty string; no nested keys asked for as
    [nil] or as an empty slice is the same question, and it finds the first
    record without nested keys. *)
Theorem Get_first_match (v : Values) (topKey : string) (nestedKeys : slice string) :
  Get v topKey nestedKeys
  = from_option Value_Value "" (firstWithKeys nestedKeys (default [] (v !! topKey)))
  /\ (v !! topKey = None -> Get v topKey nestedKeys = "")
  /\ ((forall item, item ∈ default [] (v !! topKey) ->
         len (Value_NestedKeys item) ≠ len nestedKeys) ->
      Get v topKey nestedKeys = "")
  /\ Get v topKey None = Get v topKey (Some []).
Proof.
  split; [apply Get_first|]. split; [|split].
  - intros H. by rewrite Get_first, H.
  - intros H. rewrite Get_first. unfold firstWithKeys.
    destruct (filter _ _) as [|item l] eqn:E; [done|].
    assert (item ∈ item :: l) as Hin by left. rewrite <- E in Hin.
    apply list_elem_of_filter in Hin as [Hk Hin].
    destruct (H item Hin). by rewrite !len_elems, Hk.
  - by rewrite !Get_first.
Qed.

Lemma Get_first_match_witness :
  Get {[ "page" := [mkValue "page" (Some ["size"]) "10";
                    mkValue "page" (Some ["header"; "title"]) "Title"] ]}
      "unknown" None = ""
  /\ Get {[ "page" := [mkValue "page" (Some ["size"]) "10";
                       mkValue "page" (Some ["header"; "title"]) "Title"] ]}
         "page" (Some ["header"; "font"; "name"]) = "".
Proof.
  split.
  - destruct (Get_first_match
                {[ "page" := [mkValue "page" (Some ["size"]) "10";
                              mkValue "page" (Some ["header"; "title"]) "Title"] ]}
                "unknown" None) as (_ & Hmissing & _).
    apply Hmissing. reflexivity.
  - destruct (Get_first_match
                {[ "page" := [mkValue "page" (Some ["size"]) "10";
                              mkValue "page" (Some ["header"; "title"]) "Title"] ]}
                "page" (Some ["header"; "font"; "name"])) as (_ & _ & Hlength & _).
    apply Hlength. intros item Hin. apply list_elem_of_In in Hin.
    destruct Hin as [<-|[<-|[]]]; simpl; lia.
Defined.

Lemma ParseValues_loop_default (query K : string) :
  default [] (ParseValues_loop query ∅ !! K)
  = filter (fun kv => Value_TopLevelKey kv = K) (fragmentValue <$> queryFragments query).
Proof. rewrite ParseValues_loop_lookup. by destruct (filter _ _). Qed.

(** [X8] Asking [Get] of the multimap of a query: it returns the value of
    the first fragment of the decoded query that has the top key and the
    nested keys asked for, and the empty string when no fragment has them.
    For a query written from plain records that is the value of the first
    such record. *)
Theorem Get_after_ParseValues
    (QueryUnescape : string -> result string) (query decoded : string) :
  QueryUnescape query = Ok decoded ->
  (exists values,
     ParseValues QueryUnescape query = Ok values
     /\ forall K nestedKeys,
          Get values K nestedKeys
          = from_option Value_Value "" (firstWithKeys nestedKeys (valuesUnder K decoded)))
  /\ (forall kvs, Forall canonicalValue kvs ->
        decoded = String "?"%char (renderQuery kvs) ->
        exists values,
          ParseValues QueryUnescape query = Ok values
          /\ forall K nestedKeys,
               Get values K nestedKeys
               = from_option Value_Value ""
                   (firstWithKeys nestedKeys
                      (filter (fun kv => Value_TopLevelKey kv = K) kvs))).
Proof.
  intros Hq. unfold ParseValues. rewrite Hq. split.
  - eexists. split; [reflexivity|]. intros K nestedKeys.
    by rewrite Get_first, ParseValues_loop_default.
  - intros kvs Hkvs ->. rewrite bool_decide_eq_true_2 by done.
    eexists. split; [reflexivity|]. intros K nestedKeys.
    by rewrite Get_first, ParseValues_loop_default, queryFragments_renderQuery.
Qed.

Lemma Get_after_ParseValues_witness :
  exists values,
    goParseValues "page[size]=10&page[number]=2&page[size]=50" = Ok values
    /\ Get values "page" (Some ["size"]) = "10"
    /\ Get values "page" (Some ["limit"]) = "".
Proof.
  destruct (Get_after_ParseValues url.QueryUnescape
              "page[size]=10&page[number]=2&page[size]=50"
              "page[size]=10&page[number]=2&page[size]=50" eq_refl)
    as [(values & Hv & Hget) _].
  exists values. split; [exact Hv|]. by rewrite !Hget.
Defined.

Lemma firstWithKeys_app (nestedKeys : slice string) (items more : list Value) :
  firstWithKeys nestedKeys (items ++ more)
  = match firstWithKeys nestedKeys items with
    | Some item => Some item
    | None => firstWithKeys nestedKeys more
    end.
Proof.
  unfold firstWithKeys. rewrite filter_app. by destruct (filter _ items).
Qed.

(** [X9] The first record wins.  After a record has been appended to the
    multimap, [Get] for another top key gives what it gave before; for the
    record's top key it still gives the value of the record it found
    before, when it found one, and the value of the new record when it
    found none and the nested keys asked for are those of the new record. *)
Theorem Get_appendValue (kv : Value) (values : Values) (K : string)
    (nestedKeys : slice string) :
  (K ≠ Value_TopLevelKey kv ->
     Get (appendValue kv values) K nestedKeys = Get values K nestedKeys)
  /\ (forall item,
        firstWithKeys nestedKeys (default [] (values !! K)) = Some item ->
        Get (appendValue kv values) K nestedKeys = Value_Value item)
  /\ (firstWithKeys (Value_NestedKeys kv)
        (default [] (values !! Value_TopLevelKey kv)) = None ->
      Get (appendValue kv values) (Value_TopLevelKey kv) (Value_NestedKeys kv)
      = Value_Value kv).
Proof.
  split; [|split].
  - intros Hne. rewrite !Get_first, lookup_appendValue. by rewrite decide_False.
  - intros item Hitem. rewrite Get_first, lookup_appendValue.
    case_decide as E; cbn [from_option id]; [|by rewrite Hitem].
    by rewrite firstWithKeys_app, Hitem.
  - intros Hnone. rewrite Get_first, lookup_appendValue.
    rewrite decide_True by done. cbn [from_option id].
    rewrite firstWithKeys_app, Hnone. unfold firstWithKeys.
    by rewrite filter_cons, decide_True.
Qed.

Lemma Get_appendValue_witness :
  Get (appendValue (mkValue "page" (Some ["size"]) "50")
         {[ "page" := [mkValue "page" (Some ["size"]) "10"] ]})
      "page" (Some ["size"]) = "10"
  /\ Get (appendValue (mkValue "page" (Some ["number"]) "2")
            {[ "page" := [mkValue "page" (Some ["size"]) "10"] ]})
         "page" (Some ["number"]) = "2".
Proof.
  split.
  - destruct (Get_appendValue (mkValue "page" (Some ["size"]) "50")
                {[ "page" := [mkValue "page" (Some ["size"]) "10"] ]}
                "page" (Some ["size"])) as (_ & Hold & _).
    apply (Hold (mkValue "page" (Some ["size"]) "10")). reflexivity.
  - destruct (Get_appendValue (mkValue "page" (Some ["number"]) "2")
                {[ "page" := [mkValue "page" (Some ["size"]) "10"] ]}
                "page" (Some ["number"])) as (_ & _ & Hnew).
    apply Hnew. reflexivity.
Defined.


(** ** [initFilters] *)

Lemma filters_loop (vals : list Value) (st : list Filter * bool) :
  foldl (fun st val => initFilters_body val st) st vals
  = (st.1 ++ omap filterOf vals, st.2 || bool_decide (omap filterOf vals ≠ [])).
Proof.
  revert st. induction vals as [|val vals IH]; intros [filters returnFilters]; cbn [foldl].
  - cbn [omap list_omap fst snd]. rewrite app_nil_r.
    by rewrite bool_decide_eq_false_2, orb_false_r by auto.
  - rewrite IH. cbn [omap list_omap]. unfold initFilters_body, filterOf.
    destruct (Value_NestedKeys val) as [[|fieldName [|? ?]]|]; try done.
    destruct (bool_decide (Value_Value val = "")); [done|].
    cbn [fst snd]. rewrite <- app_assoc. cbn [app]. f_equal.
    rewrite (bool_decide_eq_true_2 (_ :: _ ≠ [])) by done.
    by rewrite orb_true_r.
Qed.

(** [X10] The filters are the accepted values of the [filter] key, one
    filter for each and in their order, with nothing merged or dropped;
    the result is [nil] when the key is missing or no value is accepted,
    so a slice that is returned is never empty, and no filter it holds
    has an empty predicate. *)
Theorem initFilters_keeps_accepted_in_order (values : Values) :
  initFilters values
  = match values !! filterKeyword with
    | None => None
    | Some vals => nonEmpty (omap filterOf vals)
    end
  /\ (forall filters,
        initFilters values = Some filters ->
        filters ≠ [] /\ Forall (fun f => Filter_Predicate f ≠ "") filters).
Proof.
  assert (Heq : initFilters values
                = match values !! filterKeyword with
                  | None => None
                  | Some vals => nonEmpty (omap filterOf vals)
                  end).
  { unfold initFilters. destruct (values !! filterKeyword) as [vals|]; [|done].
    rewrite filters_loop. cbn [app orb fst snd].
    by destruct (omap filterOf vals). }
  split; [exact Heq|].
  intros filters. rewrite Heq.
  destruct (values !! filterKeyword) as [vals|]; [|done].
  intros [<- Hne]%nonEmpty_Some. split; [done|].
  clear. induction vals as [|val vals IH]; [constructor|].
  cbn [omap list_omap]. destruct (filterOf val) as [f|] eqn:Hf; [|done].
  constructor; [|done]. unfold filterOf in Hf.
  destruct (Value_NestedKeys val) as [[|fieldName [|? ?]]|]; try done.
  case_bool_decide; [done|]. by injection Hf as <-.
Qed.

(** ** [initPage] *)

Lemma lastUnder_snoc (k : string) (vals : list Value) (val : Value) :
  lastUnder k (vals ++ [val])
  = if bool_decide (Value_NestedKeys val = Some [k]) then Some val else lastUnder k vals.
Proof.
  unfold lastUnder. rewrite filter_app, filter_cons, filter_nil.
  case_bool_decide as E.
  - rewrite decide_True by done. by rewrite last_snoc.
  - rewrite decide_False by done. by rewrite app_nil_r.
Qed.

(** One round of the loop of [initPage]: the field named by the only
    nested key of [val] is overwritten, the others are kept. *)
Lemma page_body_fields (val : Value) (st : Page * bool) :
  let keyIs k := bool_decide (Value_NestedKeys val = Some [k]) in
  let st' := initPage_body val st in
  Page_Size st'.1 = (if keyIs "size" then Value_Value val else Page_Size st.1)
  /\ Page_Number st'.1 = (if keyIs "number" then Value_Value val else Page_Number st.1)
  /\ Page_Limit st'.1 = (if keyIs "limit" then Value_Value val else Page_Limit st.1)
  /\ Page_Offset st'.1 = (if keyIs "offset" then Value_Value val else Page_Offset st.1)
  /\ Page_Cursor st'.1 = (if keyIs "cursor" then Value_Value val else Page_Cursor st.1)
  /\ st'.2 = st.2 || existsb keyIs pageKeys.
Proof.
  cbn zeta. unfold initPage_body, pageKeys. cbn [existsb].
  destruct st as [page returnPage]. cbn [fst snd].
  destruct (Value_NestedKeys val) as [[|k [|? ?]]|];
    try (rewrite !bool_decide_eq_false_2 by done; cbn [orb];
         by rewrite orb_false_r).
  assert (Hcase : forall k', bool_decide (Some [k] = Some [k']) = bool_decide (k = k')).
  { intros k'. apply bool_decide_ext. split; [by intros [= ->]|by intros ->]. }
  rewrite !Hcase.
  destruct (bool_decide (k = "size")) eqn:E1;
    [apply bool_decide_eq_true_1 in E1; subst k; cbn; by rewrite orb_true_r|].
  destruct (bool_decide (k = "number")) eqn:E2;
    [apply bool_decide_eq_true_1 in E2; subst k; cbn; by rewrite orb_true_r|].
  destruct (bool_decide (k = "limit")) eqn:E3;
    [apply bool_decide_eq_true_1 in E3; subst k; cbn; by rewrite orb_true_r|].
  destruct (bool_decide (k = "offset")) eqn:E4;
    [apply bool_decide_eq_true_1 in E4; subst k; cbn; by rewrite orb_true_r|].
  destruct (bool_decide (k = "cursor")) eqn:E5;
    [apply bool_decide_eq_true_1 in E5; subst k; cbn; by rewrite orb_true_r|].
  cbn. by rewrite orb_false_r.
Qed.

Lemma pageField_snoc (k : string) (vals : list Value) (val : Value) :
  pageField k (vals ++ [val])
  = if bool_decide (Value_NestedKeys val = Some [k]) then Value_Value val
    else pageField k vals.
Proof.
  unfold pageField. rewrite lastUnder_snoc. by case_bool_decide.
Qed.

Lemma lastUnder_None (k : string) (vals : list Value) :
  lastUnder k vals = None
  <-> forall val, val ∈ vals -> Value_NestedKeys val ≠ Some [k].
Proof.
  induction vals as [|val vals IH] using rev_ind.
  - split; [|done]. intros _ val Hin. by apply elem_of_nil in Hin.
  - rewrite lastUnder_snoc. case_bool_decide as E.
    + split; [done|]. intros Hall.
      destruct (Hall val); [apply elem_of_app; right; by apply list_elem_of_singleton|done].
    + rewrite IH. split.
      * intros Hall val' [Hin| ->%list_elem_of_singleton]%elem_of_app;
          [by apply Hall|done].
      * intros Hall val' Hin. apply Hall, elem_of_app. by left.
Qed.

(** The invariant of the loop of [initPage], after the values [vals]. *)
Lemma page_loop_inv (vals : list Value) :
  let st := foldl (fun st val => initPage_body val st) (mkPage "" "" "" "" "", false) vals in
  st.1 = mkPage (pageField "size" vals) (pageField "number" vals) (pageField "limit" vals)
           (pageField "offset" vals) (pageField "cursor" vals)
  /\ (st.2 = true <-> exists k, k ∈ pageKeys /\ lastUnder k vals ≠ None).
Proof.
  induction vals as [|val vals IH] using rev_ind.
  - cbn. split; [done|]. split; [done|]. by intros (k & _ & Hk).
  - cbn zeta in *. rewrite foldl_snoc.
    destruct IH as [Hpage Hret].
    pose proof (page_body_fields val
                  (foldl (fun st val => initPage_body val st)
                     (mkPage "" "" "" "" "", false) vals)) as Hbody.
    cbn zeta in Hbody. rewrite Hpage in Hbody.
    cbn [Page_Size Page_Number Page_Limit Page_Offset Page_Cursor] in Hbody.
    destruct Hbody as (H1 & H2 & H3 & H4 & H5 & Hflag).
    split.
    + rewrite !pageField_snoc, <- H1, <- H2, <- H3, <- H4, <- H5.
      by destruct (initPage_body _ _).1.
    + rewrite Hflag, orb_true_iff, Hret, existsb_exists. split.
      * intros [(k & Hin & Hk)|(k & Hin & Hk)]; exists k.
        -- split; [done|]. rewrite lastUnder_snoc.
           by destruct (bool_decide (Value_NestedKeys val = Some [k])).
        -- split; [by apply list_elem_of_In|].
           by rewrite lastUnder_snoc, Hk.
      * intros (k & Hin & Hk). rewrite lastUnder_snoc in Hk.
        case_bool_decide as E.
        -- right. exists k. split; [by apply list_elem_of_In|].
           by apply bool_decide_eq_true_2.
        -- left. by exists k.
Qed.

(** [X11] The last assignment wins.  When the [page] key is there, each of
    the five fields of the page holds the value of the last [page] value
    whose only nested key is the field's name, and the empty string when
    there is none; the page is [nil] exactly when no value names one of the
    five fields, and also when the key is missing. *)
Theorem initPage_last_assignment_wins (values : Values) :
  (values !! pageKeyword = None -> initPage values = None)
  /\ (forall vals,
        values !! pageKeyword = Some vals ->
        (initPage values = None
         <-> forall k, k ∈ pageKeys -> lastUnder k vals = None)
        /\ (forall page,
              initPage values = Some page ->
              page = mkPage (pageField "size" vals) (pageField "number" vals)
                       (pageField "limit" vals) (pageField "offset" vals)
                       (pageField "cursor" vals))).
Proof.
  unfold initPage. split; [by intros ->|]. intros vals ->.
  pose proof (page_loop_inv vals) as Hinv. cbn zeta in Hinv.
  destruct (foldl _ _ vals) as [page returnPage].
  destruct Hinv as [Hpage Hret]. cbn [fst snd] in *.
  destruct returnPage.
  - split.
    + split; [done|]. intros Hnone.
      destruct Hret as [Hret _]. destruct (Hret eq_refl) as (k & Hin & Hk).
      by specialize (Hnone k Hin).
    + by intros ? [= <-].
  - split; [|done]. split; [|done]. intros _ k Hin.
    destruct (lastUnder k vals) eqn:Hk; [|done].
    destruct Hret as [_ Hret]. discriminate Hret. exists k. by rewrite Hk.
Qed.

Lemma initPage_last_assignment_wins_witness :
  initPage {[ "page" := [mkValue "page" (Some ["size"]) "10";
                         mkValue "page" (Some ["number"]) "2";
                         mkValue "page" (Some ["size"]) "50"] ]}
  = Some (mkPage "50" "2" "" "" "").
Proof.
  destruct (initPage_last_assignment_wins
              {[ "page" := [mkValue "page" (Some ["size"]) "10";
                            mkValue "page" (Some ["number"]) "2";
                            mkValue "page" (Some ["size"]) "50"] ]})
    as [_ H].
  destruct (H _ eq_refl) as [_ Hpage].
  destruct (initPage _) as [page|] eqn:E; [|by vm_compute in E].
  by rewrite (Hpage page eq_refl).
Defined.


(** ** [initSort] *)

Lemma upToEmpty_subseteq (l : list string) (x : string) : x ∈ upToEmpty l -> x ∈ l.
Proof.
  induction l as [|y l IH]; [done|]. cbn [upToEmpty].
  case_bool_decide; [by intros ?%elem_of_nil|].
  intros [->|Hin]%elem_of_cons; [by left|]. right. by apply IH.
Qed.

Lemma foldl_addField_from (fs acc : list Sort) (f : Sort) :
  f ∈ foldl addField acc fs -> f ∈ acc \/ (f ∈ fs /\ Sort_FieldName f ≠ "").
Proof.
  revert acc. induction fs as [|g fs IH]; intros acc; cbn [foldl]; [by left|].
  intros [Hin|[Hin Hne]]%IH.
  - unfold addField in Hin. case_bool_decide; [by left|].
    case_bool_decide as Hg; [by left|].
    apply elem_of_app in Hin as [Hin| ->%list_elem_of_singleton]; [by left|].
    right. split; [by left|done].
  - right. split; [by right|done].
Qed.

Lemma parseField_entry (entry : string) :
  (Sort_Order (parseField entry) = OrderDesc
   /\ entry = String sortDescChar (Sort_FieldName (parseField entry)))
  \/ (Sort_Order (parseField entry) = OrderAsc
      /\ entry = Sort_FieldName (parseField entry)).
Proof.
  unfold parseField. destruct entry as [|c name]; [by right|].
  case_bool_decide as E; [left; by subst c|by right].
Qed.

(** [X12] What [initSort] returns.  A sort list that is not [nil] is not
    empty, no field name occurs in it twice, none is empty, and every entry
    is one of the comma-separated fields of a value of the [sort] key that
    has no nested key: the field itself, ascending, or the field after its
    leading ['-'], descending. *)
Theorem initSort_result_shape (values : Values) (sort : list Sort) :
  initSort values = Some sort ->
  sort ≠ []
  /\ NoDup (Sort_FieldName <$> sort)
  /\ exists vals,
       values !! sortKeyword = Some vals
       /\ forall f, f ∈ sort ->
            Sort_FieldName f ≠ ""
            /\ exists val, val ∈ vals
                 /\ len (Value_NestedKeys val) = 0
                 /\ match Sort_Order f with
                    | OrderAsc => Sort_FieldName f
                    | OrderDesc => String sortDescChar (Sort_FieldName f)
                    end ∈ strings.Split (Value_Value val) sortDelimiter.
Proof.
  intros Hsort. split; [|split; [by eapply initSort_NoDup|]].
  - rewrite initSort_reads_upToEmpty in Hsort.
    destruct (values !! sortKeyword); [|done]. by apply nonEmpty_Some in Hsort as [<- ?].
  - rewrite initSort_reads_upToEmpty in Hsort.
    destruct (values !! sortKeyword) as [vals|]; [|done].
    exists vals. split; [done|]. apply nonEmpty_Some in Hsort as [<- _].
    intros f Hf. unfold dedupFields in Hf.
    apply foldl_addField_from in Hf as [Hf|[Hf Hne]]; [by apply elem_of_nil in Hf|].
    split; [done|].
    apply list_elem_of_In, in_flat_map in Hf as (val & Hval & Hf).
    exists val. split; [by apply list_elem_of_In|].
    unfold sortEligible in Hf.
    destruct (bool_decide (Value_Value val = "")); [done|].
    destruct (Nat.eqb (len (Value_NestedKeys val)) 0) eqn:Hlen; [|done].
    cbn [orb negb] in Hf. split; [by apply Nat.eqb_eq|].
    apply list_elem_of_In, list_elem_of_fmap in Hf as (entry & -> & Hentry).
    apply upToEmpty_subseteq in Hentry.
    by destruct (parseField_entry entry) as [[-> <-]|[-> <-]].
Qed.

Lemma initSort_result_shape_witness :
  NoDup (Sort_FieldName <$> [mkSort "title" OrderDesc; mkSort "author" OrderAsc]).
Proof.
  assert (initSort {[ "sort" := [mkValue "sort" None "-title,author,title"] ]}
          = Some [mkSort "title" OrderDesc; mkSort "author" OrderAsc]) as Hsort
    by (vm_compute; reflexivity).
  destruct (initSort_result_shape _ _ Hsort) as (_ & H & _).
  exact H.
Defined.

(** [X13] First occurrence wins.  When no value of the [sort] key has an
    empty field between its commas, the sort list is made of the fields of
    all the values without nested keys, in order: a field whose name has
    been seen is dropped whatever its direction, the others are appended
    with the direction of their first occurrence. *)
Theorem initSort_first_occurrence_wins (values : Values) (vals : list Value) :
  values !! sortKeyword = Some vals ->
  (forall val, val ∈ vals -> "" ∉ strings.Split (Value_Value val) sortDelimiter) ->
  initSort values = nonEmpty (dedupFields (fun fields => fields) vals).
Proof.
  intros Hvals Hfull. rewrite initSort_sortSpec.
  - unfold sortSpec. by rewrite Hvals.
  - intros vals' val. rewrite Hvals. intros [= <-]. apply Hfull.
Qed.

Lemma initSort_first_occurrence_wins_witness :
  initSort {[ "sort" := [mkValue "sort" None "createdAt,-title";
                         mkValue "sort" None "-createdAt,title,author"] ]}
  = Some [mkSort "createdAt" OrderAsc; mkSort "title" OrderDesc; mkSort "author" OrderAsc].
Proof.
  assert (({[ "sort" := [mkValue "sort" None "createdAt,-title";
                          mkValue "sort" None "-createdAt,title,author"] ]} : Values)
          !! sortKeyword
          = Some [mkValue "sort" None "createdAt,-title";
                  mkValue "sort" None "-createdAt,title,author"]) as Hvals
    by (vm_compute; reflexivity).
  rewrite (initSort_first_occurrence_wins _ _ Hvals).
  - reflexivity.
  - intros val Hval. repeat (apply elem_of_cons in Hval as [->|Hval]); [| |by apply elem_of_nil in Hval];
      vm_compute; intros Hin;
      repeat (apply elem_of_cons in Hin as [Hin|Hin]; [discriminate Hin|]);
      by apply elem_of_nil in Hin.
Defined.

(** ** [expandInclude] and [initIncludes] *)

(** Expanding a node along a chain merges the chain into the children of
    the node the way a chain of the query is merged into the roots. *)
Lemma expandInclude_addChain (root : Include) (c : ascii) (q : string) :
  expandInclude root (String c q)
  = mkInclude (Include_Relation root) (addChain (Include_Includes root) (String c q)).
Proof.
  simp expandInclude. unfold addChain.
  destruct root as [relation incs]. cbn [Include_Includes Include_Relation].
  destruct incs as [|inc incs]; [done|]. cbv zeta.
  destruct (findRelation (inc :: incs) _) as [i|] eqn:Hfind; [|done].
  apply findRelation_Some in Hfind as (node & Hi & _).
  unfold deref. by rewrite Hi.
Qed.

Lemma addChain_twice (forest : list Include) (chain : string) :
  (forall node,
     expandInclude (expandInclude node (split chain nestedRelationDelimiter true).2)
       (split chain nestedRelationDelimiter true).2
     = expandInclude node (split chain nestedRelationDelimiter true).2) ->
  addChain (addChain forest chain) chain = addChain forest chain.
Proof.
  intros Hrest. unfold addChain at 2 3.
  set (cur := (split chain nestedRelationDelimiter true).1).
  set (rest := (split chain nestedRelationDelimiter true).2) in *.
  destruct (findRelation forest cur) as [i|] eqn:Hfind.
  - apply findRelation_Some in Hfind as Hnode. destruct Hnode as (node & Hi & Hr).
    unfold addChain. fold cur rest.
    rewrite (findRelation_names _ forest), Hfind
      by (apply (names_insert _ _ node); [done|by rewrite expandInclude_Relation; unfold deref; rewrite Hi]).
    unfold deref at 1. rewrite list_lookup_insert_eq by (by eapply lookup_lt_Some).
    cbn [default from_option id]. rewrite Hrest. by rewrite list_insert_insert_eq.
  - unfold addChain. fold cur rest.
    rewrite findRelation_snoc, Hfind, bool_decide_eq_true_2
      by (by rewrite expandInclude_Relation).
    unfold deref. rewrite lookup_app_r, Nat.sub_diag by done.
    cbn [lookup list_lookup default from_option id]. rewrite Hrest.
    apply list_insert_id. by rewrite lookup_app_r, Nat.sub_diag.
Qed.

(** [X14] Expanding twice is expanding once.  [expandInclude] leaves the
    relation of the node alone, keeps the children the node has where they
    are, and a second call along the same chain finds every node of the
    chain and changes nothing. *)
Theorem expandInclude_idempotent (root : Include) (queryPart : string) :
  expandInclude (expandInclude root queryPart) queryPart = expandInclude root queryPart
  /\ Include_Relation (expandInclude root queryPart) = Include_Relation root
  /\ (Include_Relation <$> Include_Includes root)
       `prefix_of` (Include_Relation <$> Include_Includes (expandInclude root queryPart)).
Proof.
  split; [|split; [apply expandInclude_Relation|]].
  - remember (String.length queryPart) as n eqn:Hn.
    revert root queryPart Hn. induction (lt_wf n) as [n _ IH]. intros root queryPart ->.
    destruct queryPart as [|c q]; [by simp expandInclude|].
    rewrite !expandInclude_addChain. cbn [Include_Relation Include_Includes].
    f_equal. apply addChain_twice. intros node.
    eapply IH; [|reflexivity]. apply split_snd_shorter.
  - destruct queryPart as [|c q]; [by simp expandInclude|].
    rewrite expandInclude_addChain. cbn [Include_Includes]. apply addChain_prefix.
Qed.

(** [X15] What [initIncludes] returns.  With the [include] key in the
    multimap the result is never [nil], even when no relation is read; and
    in the forest no relation occurs twice among the roots, nor among the
    children of any node. *)
Theorem initIncludes_result_shape (values : Values) :
  (values !! includeKeyword = None <-> initIncludes values = None)
  /\ (forall vals,
        values !! includeKeyword = Some vals ->
        Forall (fun val => includeEligible val = false) vals ->
        initIncludes values = Some [])
  /\ (forall forest, initIncludes values = Some forest -> uniqueForest forest).
Proof.
  split; [|split].
  - rewrite initIncludes_reads_upToEmpty. by destruct (values !! includeKeyword).
  - intros vals Hvals Hnone. rewrite initIncludes_reads_upToEmpty, Hvals.
    f_equal. unfold forestOf.
    replace (flat_map _ vals) with (@nil string); [done|]. clear Hvals.
    induction Hnone as [|val vals Hval _ IH]; [done|].
    cbn [flat_map]. rewrite Hval. exact IH.
  - apply initIncludes_unique.
Qed.

(** [X16] Chains are merged in order.  When no value of the [include] key
    has an empty chain between its commas, the forest is the one that
    merging every chain of every value without nested keys gives, in the
    order of the query. *)
Theorem initIncludes_merges_chains_in_order (values : Values) (vals : list Value) :
  values !! includeKeyword = Some vals ->
  (forall val, val ∈ vals -> "" ∉ strings.Split (Value_Value val) relationDelimiter) ->
  initIncludes values = Some (forestOf (fun chains => chains) vals).
Proof.
  intros Hvals Hfull. rewrite initIncludes_reads_upToEmpty, Hvals.
  f_equal. unfold forestOf. f_equal. clear Hvals.
  induction vals as [|val vals IH]; [done|]. cbn [flat_map].
  rewrite IH by (intros; apply Hfull; by right).
  by rewrite upToEmpty_id by (apply Hfull; by left).
Qed.

Lemma initIncludes_merges_chains_in_order_witness :
  initIncludes {[ "include" := [mkValue "include" None "author,comments.author";
                                mkValue "include" None "comments.replies"] ]}
  = Some [mkInclude "author" [];
          mkInclude "comments" [mkInclude "author" []; mkInclude "replies" []]].
Proof.
  assert (({[ "include" := [mkValue "include" None "author,comments.author";
                             mkValue "include" None "comments.replies"] ]} : Values)
          !! includeKeyword
          = Some [mkValue "include" None "author,comments.author";
                  mkValue "include" None "comments.replies"]) as Hvals
    by (vm_compute; reflexivity).
  rewrite (initIncludes_merges_chains_in_order _ _ Hvals).
  - reflexivity.
  - intros val Hval. repeat (apply elem_of_cons in Hval as [->|Hval]); [| |by apply elem_of_nil in Hval];
      vm_compute; intros Hin;
      repeat (apply elem_of_cons in Hin as [Hin|Hin]; [discriminate Hin|]);
      by apply elem_of_nil in Hin.
Defined.


(** ** [parsePath] *)

Lemma Split_no_sep (s : string) (sep : ascii) :
  Forall (fun seg => strings.IndexByte seg sep = None) (strings.Split s sep).
Proof.
  induction s as [|c s IH]; cbn [strings.Split]; [by constructor|].
  destruct (decide (c = sep)) as [->|Hne]; [by constructor|].
  destruct (strings.Split s sep) as [|x xs]; [by constructor; [cbn; rewrite decide_False|]|].
  apply Forall_cons in IH as [Hx Hxs]. constructor; [|done].
  cbn. rewrite decide_False by done. by rewrite Hx.
Qed.

Lemma hasDouble_cons (c : ascii) (s : string) :
  hasDouble (String c s) = false ->
  hasDouble s = false /\ (c = delim -> startsDelim s = false).
Proof.
  cbn [hasDouble]. intros [H1 H2]%orb_false_elim. split; [done|]. intros ->.
  destruct s as [|b s]; [done|]. cbn [startsDelim].
  by rewrite bool_decide_eq_true_2 in H1.
Qed.

Lemma Split_inner (s : string) :
  hasDouble s = false ->
  innerNonEmpty (tail (strings.Split s delim))
  /\ (startsDelim s = false -> innerNonEmpty (strings.Split s delim)).
Proof.
  induction s as [|c s IH]; [done|]. intros [Hs Hc]%hasDouble_cons.
  destruct (IH Hs) as [IHtail IHall]. cbn [strings.Split startsDelim].
  destruct (decide (c = delim)) as [->|Hne].
  - rewrite bool_decide_eq_true_2 by done. cbn [tail]. split; [auto|done].
  - rewrite bool_decide_eq_false_2 by done.
    pose proof (Split_nonempty s delim) as Hnil.
    destruct (strings.Split s delim) as [|x xs]; [done|]. cbn [tail] in *.
    split; [done|]. intros _. destruct xs as [|y ys]; [done|]. by split.
Qed.

Lemma Split_head (s : string) :
  s ≠ "" -> startsDelim s = false ->
  exists seg segs, strings.Split s delim = seg :: segs /\ seg ≠ "".
Proof.
  destruct s as [|c s]; [done|]. intros _. cbn [startsDelim strings.Split].
  intros Hc%bool_decide_eq_false_1. rewrite decide_False by done.
  destruct (strings.Split s delim) as [|x xs]; eauto.
Qed.

(** The path [parsePath] cuts into segments, when it is not degenerate:
    it is not empty, does not start with a separator and has no two
    separators in a row. *)
Lemma stripped_shape (decoded : string) :
  ~ degeneratePath decoded ->
  let path := removeExtraDelimiters decoded in
  let stripped := match path with
                  | String c p' => if bool_decide (c = delim) then p' else path
                  | EmptyString => path
                  end in
  stripped ≠ "" /\ startsDelim stripped = false /\ hasDouble stripped = false.
Proof.
  intros Hnd. cbn zeta. unfold degeneratePath in Hnd.
  pose proof (collapse_shape false decoded) as [Hdouble _].
  rewrite <- removeExtraDelimiters_collapse in Hdouble.
  destruct (removeExtraDelimiters decoded) as [|c p']; [by destruct Hnd; left|].
  apply hasDouble_cons in Hdouble as Hp'. destruct Hp' as [Hp' Hstart].
  case_bool_decide as Hc.
  - subst c. split; [|by auto]. intros ->. destruct Hnd. by right.
  - split; [done|]. split; [|done]. cbn [startsDelim]. by apply bool_decide_eq_false_2.
Qed.

Lemma pathSegments_shape (decoded : string) :
  ~ degeneratePath decoded ->
  exists seg0 segs,
    pathSegments decoded = seg0 :: segs
    /\ seg0 ≠ ""
    /\ innerNonEmpty (seg0 :: segs)
    /\ Forall (fun seg => strings.IndexByte seg delim = None) (seg0 :: segs).
Proof.
  intros Hnd. destruct (stripped_shape decoded Hnd) as (Hne & Hstart & Hdouble).
  unfold pathSegments.
  destruct (Split_head _ Hne Hstart) as (seg0 & segs & Hsplit & Hseg0).
  exists seg0, segs. split; [done|]. split; [done|]. rewrite <- Hsplit. split.
  - by apply Split_inner.
  - apply Split_no_sep.
Qed.

(** [X17] What [parsePath] returns.  In a request read from a path the
    resource type is never empty and the query is not set; a relationship
    type and a related resource type are never both there, and with either
    of them the resource has an ID; and no field holds a separator. *)
Theorem parsePath_request_shape
    (PathUnescape : string -> result string) (Quote : string -> string)
    (path : string) (r : Request) :
  parsePath PathUnescape Quote path = Ok r ->
  Resource_Type (Request_Resource r) ≠ ""
  /\ Request_Query r = None
  /\ (Request_RelationshipType r = "" \/ Request_RelatedResourceType r = "")
  /\ (Request_RelationshipType r ≠ "" \/ Request_RelatedResourceType r ≠ "" ->
      Resource_ID (Request_Resource r) ≠ "")
  /\ Forall (fun field => strings.IndexByte field delim = None)
       [Resource_Type (Request_Resource r); Resource_ID (Request_Resource r);
        Request_RelationshipType r; Request_RelatedResourceType r].
Proof.
  intros Hr.
  destruct (PathUnescape path) as [decoded|e] eqn:Hdec;
    [|by unfold parsePath in Hr; rewrite Hdec in Hr].
  destruct (degeneratePath_dec decoded) as [Hd|Hnd];
    [by rewrite (parsePath_degenerate _ Quote _ _ Hdec Hd) in Hr|].
  rewrite (parsePath_decoded _ Quote _ _ Hdec Hnd) in Hr.
  destruct (pathSegments_shape decoded Hnd) as (seg0 & segs & Hsegs & Hseg0 & Hinner & Hsep).
  rewrite Hsegs in Hr.
  assert (Hempty : strings.IndexByte "" delim = None) by done.
  destruct segs as [|seg1 [|seg2 [|seg3 [|seg4 segs]]]]; [..|done].
  - injection Hr as <-. cbn. repeat apply Forall_cons in Hsep as [? Hsep].
    split; [done|]. split; [done|]. split; [by left|]. split; [by intros [|]|].
    by repeat constructor.
  - injection Hr as <-. cbn. repeat apply Forall_cons in Hsep as [? Hsep].
    split; [done|]. split; [done|]. split; [by left|]. split; [by intros [|]|].
    by repeat constructor.
  - injection Hr as <-. cbn. repeat apply Forall_cons in Hsep as [? Hsep].
    cbn in Hinner. destruct Hinner as (_ & Hseg1 & _).
    split; [done|]. split; [done|]. split; [by left|]. split; [done|].
    by repeat constructor.
  - destruct (bool_decide (seg2 ≠ relationshipsRequest)); [done|].
    injection Hr as <-. cbn. repeat apply Forall_cons in Hsep as [? Hsep].
    cbn in Hinner. destruct Hinner as (_ & Hseg1 & _).
    split; [done|]. split; [done|]. split; [by right|]. split; [done|].
    by repeat constructor.
Qed.

Lemma parsePath_request_shape_witness :
  exists r, goParsePath "/articles/1/relationships/author" = Ok r
            /\ Resource_ID (Request_Resource r) ≠ "".
Proof.
  assert (goParsePath "/articles/1/relationships/author"
          = Ok (mkRequest (mkResource "articles" "1") "author" "" None)) as Hr
    by (vm_compute; reflexivity).
  eexists. split; [exact Hr|].
  destruct (parsePath_request_shape url.PathUnescape strconv.Quote _ _ Hr)
    as (_ & _ & _ & Hid & _).
  apply Hid. by left.
Defined.

Lemma collapse_leading_delim (d : string) :
  collapse false (String delim d)
  = match collapse false d with
    | String c n' => if bool_decide (c = delim) then collapse false d
                     else String delim (collapse false d)
    | EmptyString => String delim ""
    end.
Proof.
  cbn [collapse]. rewrite bool_decide_eq_true_2 by done. cbn [andb].
  destruct d as [|c d1]; [done|]. cbn [collapse]. rewrite andb_false_r, andb_true_r.
  destruct (decide (c = delim)) as [->|Hc].
  - by rewrite !bool_decide_eq_true_2.
  - by rewrite !bool_decide_eq_false_2.
Qed.

(** [X18] The leading separator is optional: a path and the same path
    after one more ['/'] in front give the same request, or the same
    error. *)
Theorem parsePath_leading_delimiter_optional
    (PathUnescape : string -> result string) (Quote : string -> string)
    (path path' decoded : string) :
  PathUnescape path = Ok decoded ->
  PathUnescape path' = Ok (String delim decoded) ->
  parsePath PathUnescape Quote path' = parsePath PathUnescape Quote path.
Proof.
  intros Hdec Hdec'. unfold parsePath. rewrite Hdec, Hdec'.
  rewrite !removeExtraDelimiters_collapse, collapse_leading_delim.
  destruct (collapse false decoded) as [|c n'] eqn:Hn; [done|].
  destruct (decide (c = delim)) as [->|Hc].
  - by rewrite !(bool_decide_eq_true_2 (delim = delim)).
  - rewrite !(bool_decide_eq_false_2 (c = delim)) by done.
    rewrite !(bool_decide_eq_true_2 (delim = delim)) by done.
    rewrite !(bool_decide_eq_false_2 (String _ _ = "")) by done.
    rewrite (bool_decide_eq_false_2 (String delim (String c n') = String delim ""))
      by done.
    rewrite (bool_decide_eq_false_2 (String c n' = String delim ""))
      by (intros [= -> _]; done).
    done.
Qed.

Lemma parsePath_leading_delimiter_optional_witness :
  goParsePath "/articles/1" = goParsePath "articles/1".
Proof.
  apply (parsePath_leading_delimiter_optional url.PathUnescape strconv.Quote
           "articles/1" "/articles/1" "articles/1"); reflexivity.
Defined.

Lemma withoutDelims_empty (s : string) :
  withoutDelims s = "" ->
  collapse true s = "" /\ (collapse false s = "" \/ collapse false s = String delim "").
Proof.
  induction s as [|c s IH]; [by auto|]. cbn [withoutDelims collapse].
  destruct (decide (c = delim)) as [->|Hc].
  - rewrite !bool_decide_eq_true_2 by done. intros [Ht _]%IH. cbn [andb].
    rewrite Ht. auto.
  - by rewrite bool_decide_eq_false_2.
Qed.

Lemma degeneratePath_only_delims (decoded : string) :
  degeneratePath decoded <-> withoutDelims decoded = "".
Proof.
  unfold degeneratePath. rewrite removeExtraDelimiters_collapse. split.
  - rewrite <- (collapse_content false decoded). by intros [->| ->].
  - by intros [_ H]%withoutDelims_empty.
Qed.

(** [X19] The empty-path error.  A path that decodes gets the error of the
    empty path exactly when it holds nothing but separators. *)
Theorem parsePath_empty_path_error
    (PathUnescape : string -> result string) (Quote : string -> string)
    (path decoded : string) :
  PathUnescape path = Ok decoded ->
  (parsePath PathUnescape Quote path
   = Err "qparser: empty path is given, path must have 1-4 segments"
   <-> withoutDelims decoded = "").
Proof.
  intros Hdec. rewrite <- degeneratePath_only_delims.
  destruct (degeneratePath_dec decoded) as [Hd|Hnd].
  - by rewrite (parsePath_degenerate _ Quote _ _ Hdec Hd).
  - split; [|done]. rewrite (parsePath_decoded _ Quote _ _ Hdec Hnd).
    destruct (pathSegments decoded) as [|a [|b [|c [|d [|e l]]]]]; try done.
    destruct (bool_decide (c ≠ relationshipsRequest)); [|done].
    unfold relationshipsError. rewrite !str_app_cons. intros [=].
Qed.

Lemma parsePath_empty_path_error_witness :
  goParsePath "//%2F/"
  = Err "qparser: empty path is given, path must have 1-4 segments".
Proof.
  apply (parsePath_empty_path_error url.PathUnescape strconv.Quote "//%2F/" "////");
    reflexivity.
Defined.


(** ** [ParseRequest] and [ParseQuery] *)

Lemma split_app_sep (a b : string) (sep : ascii) :
  strings.IndexByte a sep = None ->
  split (a +:+ String sep b) sep true = (a, b).
Proof.
  intros Ha. unfold split. rewrite IndexByte_app_sep by done.
  by rewrite sliceTo_app, sliceFrom_app.
Qed.

(** [X20] [ParseRequest] cuts its argument at the first ['?']: the part
    before it goes to [parsePath], the part after it to [ParseQuery], and
    the request is the one of the path with the query set.  An argument
    without ['?'] is read as the path with an empty query. *)
Theorem ParseRequest_cuts_at_first_question_mark
    (PathUnescape QueryUnescape : string -> result string) (Quote : string -> string)
    (path query : string) :
  strings.IndexByte path "?" = None ->
  ParseRequest PathUnescape QueryUnescape Quote (path +:+ String "?" query)
  = match parsePath PathUnescape Quote path with
    | Err msg => Err msg
    | Ok request =>
        match ParseQuery QueryUnescape query with
        | Err msg => Err msg
        | Ok q =>
            Ok (mkRequest (Request_Resource request) (Request_RelationshipType request)
                  (Request_RelatedResourceType request) (Some q))
        end
    end
  /\ ParseRequest PathUnescape QueryUnescape Quote path
     = ParseRequest PathUnescape QueryUnescape Quote (path +:+ String "?" "")
  /\ (forall r,
        ParseRequest PathUnescape QueryUnescape Quote (path +:+ String "?" query) = Ok r ->
        exists request q,
          parsePath PathUnescape Quote path = Ok request
          /\ ParseQuery QueryUnescape query = Ok q
          /\ Request_Resource r = Request_Resource request
          /\ Request_RelationshipType r = Request_RelationshipType request
          /\ Request_RelatedResourceType r = Request_RelatedResourceType request
          /\ Request_Query r = Some q).
Proof.
  intros Hpath.
  assert (Hcut : forall query,
            ParseRequest PathUnescape QueryUnescape Quote (path +:+ String "?" query)
            = match parsePath PathUnescape Quote path with
              | Err msg => Err msg
              | Ok request =>
                  match ParseQuery QueryUnescape query with
                  | Err msg => Err msg
                  | Ok q =>
                      Ok (mkRequest (Request_Resource request)
                            (Request_RelationshipType request)
                            (Request_RelatedResourceType request) (Some q))
                  end
              end).
  { intros query'. by rewrite ParseRequest_unfold, split_app_sep. }
  split; [apply Hcut|]. split.
  - rewrite Hcut, ParseRequest_unfold. unfold split. by rewrite Hpath.
  - intros r. rewrite Hcut.
    destruct (parsePath PathUnescape Quote path) as [request|]; [|done].
    destruct (ParseQuery QueryUnescape query) as [q|]; [|done].
    intros [= <-]. by exists request, q.
Qed.

Lemma ParseRequest_cuts_at_first_question_mark_witness :
  exists r,
    goParseRequest "/articles/1?page[size]=10" = Ok r
    /\ Request_Resource r = mkResource "articles" "1"
    /\ Request_Query r ≠ None.
Proof.
  destruct (ParseRequest_cuts_at_first_question_mark url.PathUnescape url.QueryUnescape
              strconv.Quote "/articles/1" "page[size]=10" eq_refl) as (_ & _ & Hok).
  destruct (goParseRequest "/articles/1?page[size]=10") as [r|] eqn:Hr;
    [|by vm_compute in Hr].
  destruct (Hok r Hr) as (request & q & Hpath & _ & Hresource & _ & _ & Hquery).
  exists r. split; [reflexivity|]. split; [|by rewrite Hquery].
  rewrite Hresource. vm_compute in Hpath. by injection Hpath as <-.
Defined.

Lemma initPage_pageOf (values : Values) :
  initPage values = pageOf (default [] (values !! pageKeyword)).
Proof.
  unfold initPage, pageOf. destruct (values !! pageKeyword) as [vals|]; [|done].
  cbn [default from_option id].
  pose proof (page_loop_inv vals) as Hinv. cbn zeta in Hinv.
  destruct (foldl _ _ vals) as [page returnPage].
  cbn [fst snd] in Hinv. destruct Hinv as [-> Hret].
  destruct (forallb _ pageKeys) eqn:Hall.
  - destruct returnPage; [|done]. destruct Hret as [Hret _].
    destruct (Hret eq_refl) as (k & Hin & Hk).
    rewrite forallb_forall in Hall. apply list_elem_of_In, Hall in Hin.
    by apply bool_decide_eq_true_1 in Hin.
  - destruct returnPage; [done|]. destruct Hret as [_ Hret].
    assert (forallb (fun k => bool_decide (lastUnder k vals = None)) pageKeys = true)
      as Hall'; [|by rewrite Hall' in Hall].
    apply forallb_forall. intros k Hin. apply bool_decide_eq_true_2.
    destruct (lastUnder k vals) eqn:Hk; [|done].
    discriminate Hret. exists k. split; [by apply list_elem_of_In|by rewrite Hk].
Qed.

Lemma FieldsByResource_initResourceFields (values : Values) (resourceType : string) :
  FieldsByResource (initResourceFields values) resourceType
  = nonEmpty (fieldsFor notEmpty resourceType (default [] (values !! fieldsKeyword))).
Proof.
  unfold initResourceFields. destruct (values !! fieldsKeyword) as [vals|]; [|done].
  cbn [default from_option id].
  destruct (fields_loop_inv vals) as (Hf & _ & Hr). cbv zeta.
  destruct (fs_returnFields _) eqn:E; cbn [FieldsByResource]; [apply Hf|].
  destruct (fieldsFor notEmpty resourceType vals) eqn:E'; [done|].
  assert (false = true) as F; [|done]. apply Hr. exists resourceType. by rewrite E'.
Qed.

(** [X21] Each projection of [ParseQuery] reads the fragments of its own
    key.  For a query that decodes, the multimap binds every top key to
    the records of its fragments, and the filters, the sort list, the
    forest of includes, the fields of each resource type and the page are
    what their builders give on the records of the fragments whose top key
    is [filter], [sort], [include], [fields] and [page], in the order of
    the query. *)
Theorem ParseQuery_projections_read_their_key
    (QueryUnescape : string -> result string) (query decoded : string) :
  QueryUnescape query = Ok decoded ->
  exists q,
    ParseQuery QueryUnescape query = Ok q
    /\ (forall K, Query_Values q !! K = nonEmpty (valuesUnder K decoded))
    /\ Query_Filters q = nonEmpty (omap filterOf (valuesUnder filterKeyword decoded))
    /\ Query_Sort q = nonEmpty (dedupFields upToEmpty (valuesUnder sortKeyword decoded))
    /\ Query_Includes q
       = match valuesUnder includeKeyword decoded with
         | [] => None
         | vals => Some (forestOf upToEmpty vals)
         end
    /\ (forall resourceType,
          FieldsByResource (Query_Fields q) resourceType
          = nonEmpty (fieldsFor notEmpty resourceType (valuesUnder fieldsKeyword decoded)))
    /\ Query_Page q = pageOf (valuesUnder pageKeyword decoded).
Proof.
  intros Hq. unfold ParseQuery, ParseValues. rewrite Hq.
  fold (stripQuestion decoded).
  set (values := ParseValues_loop (stripQuestion decoded) ∅).
  assert (Hlookup : forall K, values !! K = nonEmpty (valuesUnder K decoded)).
  { intros K. unfold values, valuesUnder. rewrite ParseValues_loop_lookup.
    by destruct (filter _ _). }
  assert (Hdefault : forall K, default [] (values !! K) = valuesUnder K decoded).
  { intros K. rewrite Hlookup. by destruct (valuesUnder K decoded). }
  eexists. split; [reflexivity|].
  cbn [Query_Values Query_Filters Query_Sort Query_Includes Query_Fields Query_Page].
  split; [exact Hlookup|]. split; [|split; [|split; [|split]]].
  - unfold initFilters. rewrite Hlookup.
    destruct (valuesUnder filterKeyword decoded) as [|val vals]; [done|].
    cbn [nonEmpty]. rewrite filters_loop. cbn [app orb fst snd].
    by destruct (omap filterOf (val :: vals)).
  - rewrite initSort_reads_upToEmpty, Hlookup.
    by destruct (valuesUnder sortKeyword decoded).
  - rewrite initIncludes_reads_upToEmpty, Hlookup.
    by destruct (valuesUnder includeKeyword decoded).
  - intros resourceType. by rewrite FieldsByResource_initResourceFields, Hdefault.
  - by rewrite initPage_pageOf, Hdefault.
Qed.

Lemma ParseQuery_projections_read_their_key_witness :
  exists q,
    goParseQuery "filter[name]=eq:John&sort=-age&filter[age]=gt:3&sort=age,name" = Ok q
    /\ Query_Filters q = Some [mkFilter "name" "eq:John"; mkFilter "age" "gt:3"]
    /\ Query_Sort q = Some [mkSort "age" OrderDesc; mkSort "name" OrderAsc].
Proof.
  destruct (ParseQuery_projections_read_their_key url.QueryUnescape
              "filter[name]=eq:John&sort=-age&filter[age]=gt:3&sort=age,name"
              "filter[name]=eq:John&sort=-age&filter[age]=gt:3&sort=age,name" eq_refl)
    as (q & Hq & _ & Hfilters & Hsort & _).
  exists q. split; [exact Hq|]. rewrite Hfilters, Hsort. split; reflexivity.
Defined.

(** ** [SortOrder.String] and [removeExtraDelimiters] *)

